(** * basicLexr: a shallow embedding of [src/lexr.cpp] and its properties

    The development follows the source file top to bottom: the token
    kinds, the [Token] and [Lexer] records, the private helpers
    [readChar], [skipWhitespace], [readNumber], [readIdentifier], the
    constructor and [nextToken].

    Modelling conventions.
    - [std::string] is [string]; a [char] is an [ascii] (one byte).
    - [size_t] is a [Z] in [0, 2^64) and every arithmetic operation of the
      source on it is followed by an explicit reduction [wrap].
    - the three [while] loops take a bound on their number of iterations
      and answer [OutOfFuel] when it is exceeded; [std::string::substr]
      answers [OutOfRange] where the C++ library throws.
    - [isdigit] and [isalpha] are those of the "C" locale (the program never
      changes the locale): only the ASCII digits and the ASCII letters, and
      no byte above 127, whatever the signedness of [char]. *)

From Stdlib Require Import ZArith Lia Bool List.
From Stdlib Require Import Strings.Ascii Strings.String.
Import ListNotations.

Local Open Scope string_scope.
Local Open Scope Z_scope.

(** ** Outcomes of a computation *)

Inductive result (A : Type) : Type :=
| Ok (a : A)
| OutOfRange
| OutOfFuel.

Arguments Ok {A} a.
Arguments OutOfRange {A}.
Arguments OutOfFuel {A}.

Definition bind {A B : Type} (m : result A) (k : A -> result B) : result B :=
  match m with
  | Ok a => k a
  | OutOfRange => OutOfRange
  | OutOfFuel => OutOfFuel
  end.

Notation "x <- m ;; k" := (bind m (fun x => k))
  (at level 61, m at next level, right associativity).
Notation "' p <- m ;; k" := (bind m (fun x => let p := x in k))
  (at level 61, p pattern, m at next level, right associativity).

(** ** [size_t] *)

Definition SIZE_BITS : Z := 64.
Definition SIZE_MOD : Z := 2 ^ SIZE_BITS.

Definition wrap (z : Z) : Z := z mod SIZE_MOD.

(** ** Tokens *)

Inductive TokenType : Set :=
| NUMBER
| IDENTIFIER
| EQUALS
| PLUS
| MINUS
| STAR
| SLASH
| OPEN_PAREN
| CLOSE_PAREN
| LET
| ILLEGAL
| END_OF_FILE.

Definition TokenType_eqb (a b : TokenType) : bool :=
  match a, b with
  | NUMBER, NUMBER | IDENTIFIER, IDENTIFIER | EQUALS, EQUALS
  | PLUS, PLUS | MINUS, MINUS | STAR, STAR | SLASH, SLASH
  | OPEN_PAREN, OPEN_PAREN | CLOSE_PAREN, CLOSE_PAREN
  | LET, LET | ILLEGAL, ILLEGAL | END_OF_FILE, END_OF_FILE => true
  | _, _ => false
  end.

Record Token : Set := mkToken { type : TokenType; literal : string }.

(** ** Character classes *)

Definition NUL : ascii := Ascii.zero.

Definition is_space (c : ascii) : bool :=
  (c =? " ")%char || (c =? "009")%char || (c =? "010")%char || (c =? "013")%char.

Definition isdigit (c : ascii) : bool :=
  let n := N_of_ascii c in ((48 <=? n) && (n <=? 57))%N.

Definition isalpha (c : ascii) : bool :=
  let n := N_of_ascii c in
  (((65 <=? n) && (n <=? 90)) || ((97 <=? n) && (n <=? 122)))%N.

Definition is_ident_char (c : ascii) : bool := isalpha c || (c =? "_")%char.

(** ** The parts of [std::string] the lexer uses *)

Definition size (s : string) : Z := Z.of_nat (String.length s).

(** [s[i]] for [i < s.size()]; the lexer never indexes elsewhere. *)
Definition char_at (s : string) (i : Z) : ascii :=
  match String.get (Z.to_nat i) s with
  | Some c => c
  | None => NUL
  end.

(** [s.substr(pos, n)]: throws when [pos > s.size()], otherwise the
    characters from [pos], [n] of them or as many as remain. *)
Definition substr (s : string) (pos n : Z) : result string :=
  if size s <? pos then OutOfRange
  else Ok (String.substring (Z.to_nat pos) (Z.to_nat (Z.min n (size s - pos))) s).

(** ** The lexer *)

Record Lexer : Set := mkLexer {
  input : string;
  position : Z;
  readPosition : Z;
  ch : ascii
}.

Definition readChar (l : Lexer) : Lexer :=
  {| input := input l;
     position := readPosition l;
     readPosition := wrap (readPosition l + 1);
     ch := if size (input l) <=? readPosition l then NUL
           else char_at (input l) (readPosition l) |}.

(** [while (p(ch)) readChar();] with at most [fuel] iterations. *)
Fixpoint readWhile (p : ascii -> bool) (fuel : nat) (l : Lexer) : result Lexer :=
  if p (ch l) then
    match fuel with
    | O => OutOfFuel
    | S fuel' => readWhile p fuel' (readChar l)
    end
  else Ok l.

Definition skipWhitespace (fuel : nat) (l : Lexer) : result Lexer :=
  readWhile is_space fuel l.

Definition readNumber (fuel : nat) (l : Lexer) : result (string * Lexer) :=
  let startPos := position l in
  l' <- readWhile isdigit fuel l ;;
  s <- substr (input l') startPos (wrap (position l' - startPos)) ;;
  Ok (s, l').

Definition readIdentifier (fuel : nat) (l : Lexer) : result (string * Lexer) :=
  let startPos := position l in
  l' <- readWhile is_ident_char fuel l ;;
  s <- substr (input l') startPos (wrap (position l' - startPos)) ;;
  Ok (s, l').

(** The constructor: [position(0), readPosition(0)], then [readChar()].
    The member [ch] is not initialised before that call, which overwrites
    it without reading it; the model starts it at [NUL]. *)
Definition newLexer (inp : string) : Lexer :=
  readChar {| input := inp; position := 0; readPosition := 0; ch := NUL |}.

(** The seven [case] labels of the [switch] that name a symbol, each with
    the token it assigns. *)
Definition symbol (c : ascii) : option Token :=
  if (c =? "=")%char then Some (mkToken EQUALS "=")
  else if (c =? "+")%char then Some (mkToken PLUS "+")
  else if (c =? "-")%char then Some (mkToken MINUS "-")
  else if (c =? "*")%char then Some (mkToken STAR "*")
  else if (c =? "/")%char then Some (mkToken SLASH "/")
  else if (c =? "(")%char then Some (mkToken OPEN_PAREN "(")
  else if (c =? ")")%char then Some (mkToken CLOSE_PAREN ")")
  else None.

Definition nextToken (fuel : nat) (l0 : Lexer) : result (Token * Lexer) :=
  l <- skipWhitespace fuel l0 ;;
  let tok := mkToken ILLEGAL (String (ch l) EmptyString) in
  match symbol (ch l) with
  | Some sym => Ok (sym, readChar l)
  | None =>
      if (ch l =? NUL)%char then Ok (mkToken END_OF_FILE "", readChar l)
      else if isdigit (ch l) then
        '(num, l') <- readNumber fuel l ;;
        Ok (mkToken NUMBER num, l')
      else if is_ident_char (ch l) then
        '(ident, l') <- readIdentifier fuel l ;;
        if (ident =? "let")%string then Ok (mkToken LET ident, l')
        else Ok (mkToken IDENTIFIER ident, l')
      else Ok (tok, readChar l)
  end.

(** ** Drivers: sequences of calls *)

(** [n] successive calls of [nextToken]: the tokens in order and the
    lexer left behind. *)
Fixpoint run (fuel : nat) (n : nat) (l : Lexer) : result (list Token * Lexer) :=
  match n with
  | O => Ok ([], l)
  | S n' =>
      '(tok, l1) <- nextToken fuel l ;;
      '(toks, l2) <- run fuel n' l1 ;;
      Ok (tok :: toks, l2)
  end.

(** The loop of [main]: call [nextToken] until it answers [END_OF_FILE]
    (at most [calls] times), collecting every token, the last included. *)
Fixpoint tokenize (fuel : nat) (calls : nat) (l : Lexer) : result (list Token) :=
  match calls with
  | O => OutOfFuel
  | S calls' =>
      '(tok, l1) <- nextToken fuel l ;;
      if TokenType_eqb (type tok) END_OF_FILE then Ok [tok]
      else toks <- tokenize fuel calls' l1 ;; Ok (tok :: toks)
  end.

(** ** Observing a scan

    [slice s from to] is the text of [s] between two cursor positions.
    An [Event] records, for one call of [nextToken], the input text the
    whitespace loop moved the cursor over, the token returned, and the
    input text the cursor moved over during the whole call. *)

Definition slice (s : string) (from to : Z) : string :=
  String.substring (Z.to_nat from) (Z.to_nat (to - from)) s.

Record Event : Set := mkEvent {
  skipped : string;
  emitted : Token;
  consumed : string
}.

Definition nextEvent (fuel : nat) (l : Lexer) : result (Event * Lexer) :=
  l1 <- skipWhitespace fuel l ;;
  '(tok, l2) <- nextToken fuel l ;;
  Ok (mkEvent (slice (input l) (position l) (position l1)) tok
              (slice (input l) (position l) (position l2)), l2).

(** The loop of [main] again, one event per call. *)
Fixpoint trace (fuel : nat) (calls : nat) (l : Lexer) : result (list Event) :=
  match calls with
  | O => OutOfFuel
  | S calls' =>
      '(ev, l1) <- nextEvent fuel l ;;
      if TokenType_eqb (type (emitted ev)) END_OF_FILE then Ok [ev]
      else evs <- trace fuel calls' l1 ;; Ok (ev :: evs)
  end.

(** Skipped whitespace and token texts, concatenated in order. *)
Fixpoint reassemble (evs : list Event) : string :=
  match evs with
  | [] => ""
  | ev :: evs' => skipped ev ++ literal (emitted ev) ++ reassemble evs'
  end.

Fixpoint total_consumed (evs : list Event) : nat :=
  match evs with
  | [] => O
  | ev :: evs' => (String.length (consumed ev) + total_consumed evs')%nat
  end.

(** ** Well-formed inputs and states *)

(** A [std::string] keeps [size() + 1] bytes (the text and a terminating
    null) in one array, and the byte count of an array is a [size_t]. *)
Definition valid_input (s : string) : Prop := size s + 1 < SIZE_MOD.

Fixpoint nul_free (s : string) : bool :=
  match s with
  | EmptyString => true
  | String c s' => negb (c =? NUL)%char && nul_free s'
  end.

(** What the constructor establishes and every [readChar] keeps. *)
Record consistent (l : Lexer) : Prop := mkConsistent {
  cons_input : valid_input (input l);
  cons_position : 0 <= position l < SIZE_MOD;
  cons_readPosition : readPosition l = wrap (position l + 1);
  cons_ch : ch l = if position l <? size (input l)
                   then char_at (input l) (position l) else NUL
}.

(** The states a client can observe: after the constructor and after any
    number of completed calls. *)
Inductive reachable (inp : string) : Lexer -> Prop :=
| reach_new : reachable inp (newLexer inp)
| reach_next (l : Lexer) (fuel : nat) (tok : Token) (l' : Lexer) :
    reachable inp l -> nextToken fuel l = Ok (tok, l') -> reachable inp l'.

(** Characters of the input from the cursor on. *)
Definition remaining (l : Lexer) : nat := Z.to_nat (size (input l) - position l).

(** The characters the [switch] leaves to [ILLEGAL]. *)
Definition other_char (c : ascii) : bool :=
  negb (is_space c) && negb (c =? NUL)%char
  && match symbol c with Some _ => false | None => true end
  && negb (isdigit c) && negb (is_ident_char c).

Definition is_symbol_type (ty : TokenType) : bool :=
  match ty with
  | EQUALS | PLUS | MINUS | STAR | SLASH | OPEN_PAREN | CLOSE_PAREN => true
  | _ => false
  end.

Definition EOF_token : Token := mkToken END_OF_FILE "".

(** The kind and the text a token can have when [c] is the character the
    lexer stands on once the whitespace is skipped. *)
Definition token_for (c : ascii) (tok : Token) : Prop :=
  match type tok with
  | END_OF_FILE => c = NUL /\ literal tok = ""
  | NUMBER => isdigit c = true /\ (1 <= String.length (literal tok))%nat
  | IDENTIFIER =>
      is_ident_char c = true /\ (1 <= String.length (literal tok))%nat /\
      literal tok <> "let"
  | LET => is_ident_char c = true /\ literal tok = "let"
  | ILLEGAL => other_char c = true /\ literal tok = String c ""
  | _ => symbol c = Some tok
  end.

Fixpoint all_chars (p : ascii -> bool) (s : string) : bool :=
  match s with
  | EmptyString => true
  | String c s' => p c && all_chars p s'
  end.

(** An input with a null byte in the middle: [a], [\0], [b]. *)
Definition nul_input : string := String "a" (String NUL "b").

(** The state [k] calls after [l], when [l] stands at or past the end of
    its input. *)
Definition past_end (l : Lexer) (k : Z) : Lexer :=
  {| input := input l;
     position := position l + k;
     readPosition := wrap (position l + k + 1);
     ch := NUL |}.

(** As many calls as make [readPosition] overflow on the empty input. *)
Definition overflow_calls : nat := Z.to_nat (SIZE_MOD - 1).

(** The statement scanned by [main]. *)
Definition let_statement : string := "let x = 42 + (15 - 3)".

Definition let_statement_tokens : list Token :=
  [ mkToken LET "let"; mkToken IDENTIFIER "x"; mkToken EQUALS "=";
    mkToken NUMBER "42"; mkToken PLUS "+"; mkToken OPEN_PAREN "(";
    mkToken NUMBER "15"; mkToken MINUS "-"; mkToken NUMBER "3";
    mkToken CLOSE_PAREN ")"; mkToken END_OF_FILE "" ].

(** ** Printing and [main] *)

(** The [default] label of the source answers "UNKNOWN"; no enumerator of
    [TokenType] reaches it. *)
Definition tokenTypeToString (ty : TokenType) : string :=
  match ty with
  | NUMBER => "NUMBER"
  | IDENTIFIER => "IDENTIFIER"
  | EQUALS => "EQUALS"
  | PLUS => "PLUS"
  | MINUS => "MINUS"
  | STAR => "STAR"
  | SLASH => "SLASH"
  | OPEN_PAREN => "OPEN_PAREN"
  | CLOSE_PAREN => "CLOSE_PAREN"
  | LET => "LET"
  | ILLEGAL => "ILLEGAL"
  | END_OF_FILE => "EOF"
  end.

Definition endl : string := String "010" EmptyString.

(** The line [main] sends to [std::cout] for one token. *)
Definition print_token (tok : Token) : string :=
  ("Type: " ++ tokenTypeToString (type tok) ++ ", Literal: '" ++ literal tok
   ++ "'" ++ endl)%string.

Fixpoint print_tokens (toks : list Token) : string :=
  match toks with
  | [] => EmptyString
  | tok :: toks' => (print_token tok ++ print_tokens toks')%string
  end.

(** [while (tok.type != END_OF_FILE) { print; tok = lexer.nextToken(); }]
    with at most [calls] iterations: what is written to [std::cout]. *)
Fixpoint main_loop (fuel calls : nat) (tok : Token) (lexer : Lexer) : result string :=
  if TokenType_eqb (type tok) END_OF_FILE then Ok EmptyString
  else
    match calls with
    | O => OutOfFuel
    | S calls' =>
        '(tok', lexer') <- nextToken fuel lexer ;;
        out <- main_loop fuel calls' tok' lexer' ;;
        Ok (print_token tok ++ out)%string
    end.

(** The body of [main] for a given input text: the text written to
    [std::cout] and the exit status. *)
Definition main_on (inp : string) (fuel calls : nat) : result (string * Z) :=
  let lexer := newLexer inp in
  '(tok, lexer') <- nextToken fuel lexer ;;
  out <- main_loop fuel calls tok lexer' ;;
  Ok (out, 0).

Definition main (fuel calls : nat) : result (string * Z) :=
  main_on let_statement fuel calls.

(** ** Two lexers on the same text at different offsets *)

(** [lp] reads [pre ++ input l] and stands [size pre] characters further
    than [l], which has not left its input. *)
Record shifted (pre : string) (l lp : Lexer) : Prop := mkShifted {
  sh_input : input lp = (pre ++ input l)%string;
  sh_position : position lp = size pre + position l;
  sh_inside : position l <= size (input l);
  sh_left : consistent l;
  sh_right : consistent lp
}.

(** The consistent state of a lexer on [inp] at position [p]. *)
Definition lexer_at (inp : string) (p : Z) : Lexer :=
  {| input := inp;
     position := p;
     readPosition := wrap (p + 1);
     ch := if p <? size inp then char_at inp p else NUL |}.

(** [le] reads [input l ++ ext] and stands where [l] stands, which has
    not left its input. *)
Record extended (ext : string) (l le : Lexer) : Prop := mkExtended {
  ex_input : input le = (input l ++ ext)%string;
  ex_position : position le = position l;
  ex_inside : position l <= size (input l);
  ex_left : consistent l;
  ex_right : consistent le
}.

(** * Properties *)

(** ** Strings *)

Lemma SIZE_MOD_eq : SIZE_MOD = 18446744073709551616.
Proof. reflexivity. Qed.

Lemma wrap_small (z : Z) : 0 <= z < SIZE_MOD -> wrap z = z.
Proof. intros H. unfold wrap. now apply Z.mod_small. Qed.

Lemma wrap_range (z : Z) : 0 <= wrap z < SIZE_MOD.
Proof. unfold wrap. apply Z.mod_pos_bound. rewrite SIZE_MOD_eq. lia. Qed.

Lemma size_nonneg (s : string) : 0 <= size s.
Proof. unfold size. lia. Qed.

Lemma get_lt (s : string) (n : nat) :
  (n < String.length s)%nat -> exists c, String.get n s = Some c.
Proof.
  revert n. induction s as [|a s IH]; intros n H; simpl in *; [lia|].
  destruct n as [|n]; [now exists a|]. apply IH. lia.
Qed.

Lemma substring_length (s : string) (n m : nat) :
  String.length (String.substring n m s) = Nat.min m (String.length s - n).
Proof.
  revert n m. induction s as [|a s IH]; intros n m.
  - destruct n, m; reflexivity.
  - destruct n as [|n].
    + destruct m as [|m]; [reflexivity|]. simpl. rewrite IH.
      rewrite Nat.sub_0_r. reflexivity.
    + simpl. apply IH.
Qed.

Lemma substring_split (s : string) (n m k : nat) :
  (String.substring n m s ++ String.substring (n + m) k s)%string
  = String.substring n (m + k) s.
Proof.
  revert n m. induction s as [|a s IH]; intros n m.
  - destruct n, m, k; reflexivity.
  - destruct n as [|n].
    + destruct m as [|m].
      * reflexivity.
      * simpl. f_equal. apply (IH O m).
    + simpl. apply IH.
Qed.

Lemma substring_all (s : string) (m : nat) :
  (String.length s <= m)%nat -> String.substring 0 m s = s.
Proof.
  revert m. induction s as [|a s IH]; intros m H.
  - destruct m; reflexivity.
  - simpl in H. destruct m as [|m]; [lia|]. simpl. f_equal. apply IH. lia.
Qed.

Lemma substring_one (s : string) (n : nat) (c : ascii) :
  String.get n s = Some c -> String.substring n 1 s = String c "".
Proof.
  revert n. induction s as [|a s IH]; intros n H.
  - destruct n; discriminate.
  - destruct n as [|n]; simpl in *.
    + injection H as ->. f_equal. now destruct s.
    + now apply IH.
Qed.

Lemma nul_free_get (s : string) (n : nat) (c : ascii) :
  nul_free s = true -> String.get n s = Some c -> c <> NUL.
Proof.
  revert n. induction s as [|a s IH]; intros n Hs H.
  - destruct n; discriminate.
  - simpl in Hs. apply andb_true_iff in Hs as [Ha Hs].
    destruct n as [|n]; simpl in H.
    + injection H as ->. apply negb_true_iff in Ha.
      now apply Ascii.eqb_neq in Ha.
    + eauto.
Qed.

Lemma slice_split (s : string) (a b c : Z) :
  0 <= a <= b -> b <= c ->
  (slice s a b ++ slice s b c)%string = slice s a c.
Proof.
  intros Hab Hbc. unfold slice.
  replace (Z.to_nat b) with (Z.to_nat a + Z.to_nat (b - a))%nat by lia.
  rewrite substring_split. f_equal. lia.
Qed.

Lemma slice_length (s : string) (a b : Z) :
  0 <= a <= b -> b <= size s ->
  Z.of_nat (String.length (slice s a b)) = b - a.
Proof.
  intros Hab Hb. unfold slice, size in *. rewrite substring_length. lia.
Qed.

Lemma slice_clamp (s : string) (a b : Z) :
  0 <= a <= size s -> size s <= b -> slice s a b = slice s a (size s).
Proof.
  intros Ha Hb.
  rewrite <- (slice_split s a (size s) b) by lia.
  assert (E : String.length (slice s (size s) b) = O).
  { unfold slice, size. rewrite substring_length. lia. }
  destruct (slice s (size s) b); [|discriminate].
  generalize (slice s a (size s)). intros t.
  induction t as [|x t IH]; simpl; [reflexivity | now rewrite IH].
Qed.

Lemma slice_all (s : string) (b : Z) : size s <= b -> slice s 0 b = s.
Proof.
  intros H. unfold slice, size in *. apply substring_all. lia.
Qed.

Lemma slice_one (s : string) (a : Z) :
  0 <= a < size s -> slice s a (a + 1) = String (char_at s a) "".
Proof.
  intros H. unfold slice, char_at, size in *.
  destruct (get_lt s (Z.to_nat a)) as [c Hc]; [lia|].
  rewrite Hc. replace (Z.to_nat (a + 1 - a)) with 1%nat by lia.
  now apply substring_one.
Qed.

Lemma nul_free_char_at (s : string) (i : Z) :
  nul_free s = true -> 0 <= i < size s -> char_at s i <> NUL.
Proof.
  intros Hs Hi. unfold char_at, size in *.
  destruct (get_lt s (Z.to_nat i)) as [c Hc]; [lia|].
  rewrite Hc. eapply nul_free_get; eauto.
Qed.

Lemma substr_slice (s : string) (a b : Z) :
  0 <= a <= b -> b <= size s -> b < SIZE_MOD ->
  substr s a (wrap (b - a)) = Ok (slice s a b).
Proof.
  intros Hab Hb Hm. unfold substr.
  destruct (Z.ltb_spec (size s) a); [lia|].
  rewrite wrap_small by lia. unfold slice. do 2 f_equal. lia.
Qed.

(** ** Character classes exclude one another *)

Lemma is_space_NUL : is_space NUL = false.
Proof. reflexivity. Qed.

Lemma isdigit_NUL : isdigit NUL = false.
Proof. reflexivity. Qed.

Lemma is_ident_char_NUL : is_ident_char NUL = false.
Proof. reflexivity. Qed.

Lemma symbol_type (c : ascii) (tok : Token) :
  symbol c = Some tok -> is_symbol_type (type tok) = true.
Proof.
  unfold symbol.
  repeat match goal with
         | |- context [if ?b then _ else _] => destruct b
         end; intros H; inversion H; reflexivity.
Qed.

Lemma symbol_literal (c : ascii) (tok : Token) :
  symbol c = Some tok -> literal tok = String c "".
Proof.
  unfold symbol.
  repeat match goal with
         | |- context [if (?a =? ?b)%char then _ else _] =>
             destruct (Ascii.eqb_spec a b)
         end; intros H; inversion H; subst; reflexivity.
Qed.

(** ** [readChar] and the invariant *)

Lemma readChar_input (l : Lexer) : input (readChar l) = input l.
Proof. reflexivity. Qed.

Lemma readChar_consistent (l : Lexer) :
  valid_input (input l) -> 0 <= readPosition l < SIZE_MOD ->
  consistent (readChar l).
Proof.
  intros Hv Hr. constructor; simpl; try assumption; try reflexivity.
  destruct (Z.leb_spec (size (input l)) (readPosition l));
    destruct (Z.ltb_spec (readPosition l) (size (input l))); try lia; reflexivity.
Qed.

Lemma consistent_readPosition (l : Lexer) :
  consistent l -> 0 <= readPosition l < SIZE_MOD.
Proof. intros H. rewrite (cons_readPosition l H). apply wrap_range. Qed.

Lemma consistent_readChar (l : Lexer) : consistent l -> consistent (readChar l).
Proof.
  intros H. apply readChar_consistent;
    [exact (cons_input l H) | now apply consistent_readPosition].
Qed.

Lemma newLexer_consistent (inp : string) :
  valid_input inp -> consistent (newLexer inp).
Proof.
  intros H. apply readChar_consistent; simpl; [assumption|].
  rewrite SIZE_MOD_eq. lia.
Qed.

Lemma consistent_inside (l : Lexer) :
  consistent l -> ch l <> NUL -> position l < size (input l).
Proof.
  intros H Hc. rewrite (cons_ch l H) in Hc.
  destruct (Z.ltb_spec (position l) (size (input l))); [assumption|congruence].
Qed.

Lemma consistent_ch_inside (l : Lexer) :
  consistent l -> position l < size (input l) ->
  ch l = char_at (input l) (position l).
Proof.
  intros H Hp. rewrite (cons_ch l H).
  destruct (Z.ltb_spec (position l) (size (input l))); [reflexivity|lia].
Qed.

Lemma consistent_ch_outside (l : Lexer) :
  consistent l -> size (input l) <= position l -> ch l = NUL.
Proof.
  intros H Hp. rewrite (cons_ch l H).
  destruct (Z.ltb_spec (position l) (size (input l))); [lia|reflexivity].
Qed.

(** One character further, while the cursor is on the input. *)
Lemma readChar_position (l : Lexer) :
  consistent l -> position l <= size (input l) ->
  position (readChar l) = position l + 1.
Proof.
  intros H Hp. simpl. rewrite (cons_readPosition l H).
  pose proof (cons_input l H) as Hv. pose proof (cons_position l H).
  unfold valid_input in Hv. apply wrap_small. lia.
Qed.

(** ** The loops *)

Lemma readWhile_more_fuel (p : ascii -> bool) (fuel fuel' : nat) (l l' : Lexer) :
  readWhile p fuel l = Ok l' -> (fuel <= fuel')%nat -> readWhile p fuel' l = Ok l'.
Proof.
  revert fuel' l. induction fuel as [|f IH]; intros fuel' l H Hle; simpl in *.
  - destruct (p (ch l)) eqn:E; [discriminate|].
    destruct fuel'; simpl; now rewrite E.
  - destruct (p (ch l)) eqn:E.
    + destruct fuel' as [|f']; [lia|]. simpl. rewrite E. apply IH; [assumption|lia].
    + destruct fuel'; simpl; now rewrite E.
Qed.

Lemma readWhile_spec (p : ascii -> bool) (fuel : nat) (l : Lexer) :
  p NUL = false -> consistent l -> (remaining l <= fuel)%nat ->
  exists l',
    readWhile p fuel l = Ok l' /\ consistent l' /\ input l' = input l /\
    p (ch l') = false /\ position l <= position l' /\
    (position l <= size (input l) -> position l' <= size (input l)) /\
    (p (ch l) = true -> position l < position l').
Proof.
  intros HN. revert l. induction fuel as [|f IH]; intros l Hc Hf.
  - simpl. destruct (p (ch l)) eqn:E.
    + exfalso. assert (ch l <> NUL) by (intros Z0; rewrite Z0 in E; congruence).
      pose proof (consistent_inside l Hc H). pose proof (cons_position l Hc).
      unfold remaining in Hf. lia.
    + exists l. do 2 (split; [first [reflexivity|assumption]|]).
      repeat split; try assumption; try lia; try congruence.
  - simpl. destruct (p (ch l)) eqn:E.
    + assert (Hn : ch l <> NUL) by (intros Z0; rewrite Z0 in E; congruence).
      pose proof (consistent_inside l Hc Hn) as Hin.
      pose proof (cons_position l Hc) as Hpos.
      pose proof (readChar_position l Hc ltac:(lia)) as Hp.
      destruct (IH (readChar l)) as (l' & H1 & H2 & H3 & H4 & H5 & H6 & H7).
      * now apply consistent_readChar.
      * unfold remaining in *. rewrite readChar_input, Hp. lia.
      * exists l'. rewrite readChar_input, Hp in *.
        do 2 (split; [assumption|]).
        repeat split; try assumption; try lia.
    + exists l. do 2 (split; [first [reflexivity|assumption]|]).
      repeat split; try assumption; try lia; try congruence.
Qed.

Lemma remaining_le (l l' : Lexer) :
  input l' = input l -> position l <= position l' ->
  (remaining l' <= remaining l)%nat.
Proof. intros Hi Hp. unfold remaining. rewrite Hi. lia. Qed.

(** ** One call of [nextToken] *)

Lemma nextToken_spec (fuel : nat) (l : Lexer) :
  consistent l -> (remaining l <= fuel)%nat ->
  exists l1 tok l2,
    skipWhitespace fuel l = Ok l1 /\ nextToken fuel l = Ok (tok, l2) /\
    consistent l1 /\ consistent l2 /\
    input l1 = input l /\ input l2 = input l /\
    is_space (ch l1) = false /\
    position l <= position l1 /\
    (position l <= size (input l) -> position l1 <= size (input l)) /\
    token_for (ch l1) tok /\
    (ch l1 = NUL -> l2 = readChar l1) /\
    (ch l1 <> NUL ->
       position l1 < position l2 <= size (input l) /\
       literal tok = slice (input l) (position l1) (position l2)).
Proof.
  intros Hc Hf.
  destruct (readWhile_spec is_space fuel l is_space_NUL Hc Hf)
    as (l1 & Hskip & Hc1 & Hi1 & Hsp & Hle & Hin & _).
  pose proof (cons_position l1 Hc1) as Hpos1.
  pose proof (cons_input l Hc) as Hv. unfold valid_input in Hv.
  assert (Hf1 : (remaining l1 <= fuel)%nat).
  { pose proof (remaining_le l l1 Hi1 Hle). lia. }
  assert (Hone : ch l1 <> NUL ->
            position l1 < position (readChar l1) <= size (input l) /\
            String (ch l1) "" = slice (input l) (position l1) (position (readChar l1))).
  { intros Hn. pose proof (consistent_inside l1 Hc1 Hn) as Hlt.
    rewrite (readChar_position l1 Hc1) by lia. rewrite <- Hi1.
    split; [lia|]. rewrite slice_one by lia.
    now rewrite (consistent_ch_inside l1 Hc1 Hlt). }
  assert (Hrun : forall p, p NUL = false -> p (ch l1) = true ->
            exists l2, readWhile p fuel l1 = Ok l2 /\ consistent l2 /\
              input l2 = input l /\
              position l1 < position l2 <= size (input l) /\
              substr (input l2) (position l1) (wrap (position l2 - position l1))
              = Ok (slice (input l) (position l1) (position l2)) /\
              (1 <= String.length (slice (input l) (position l1) (position l2)))%nat).
  { intros p HpN Hp.
    destruct (readWhile_spec p fuel l1 HpN Hc1 Hf1)
      as (l2 & Hr & Hc2 & Hi2 & _ & _ & Hin2 & Hlt2).
    assert (Hn : ch l1 <> NUL) by (intros E; rewrite E in Hp; congruence).
    pose proof (consistent_inside l1 Hc1 Hn) as Hlt.
    specialize (Hlt2 Hp). specialize (Hin2 ltac:(lia)).
    rewrite Hi1 in Hlt, Hin2, Hi2.
    exists l2. do 3 (split; [assumption|]). split; [lia|]. split.
    - rewrite Hi2. apply substr_slice; lia.
    - pose proof (slice_length (input l) (position l1) (position l2)). lia. }
  unfold nextToken, skipWhitespace. rewrite Hskip. cbn [bind].
  destruct (symbol (ch l1)) as [ty|] eqn:Esym.
  - (* one of the seven symbols *)
    assert (Hn : ch l1 <> NUL) by (intros E; rewrite E in Esym; discriminate).
    destruct (Hone Hn) as [Hp Hs].
    exists l1, ty, (readChar l1).
    do 2 (split; [reflexivity|]). split; [assumption|].
    split; [now apply consistent_readChar|].
    do 2 (split; [assumption|]). do 3 (split; [assumption|]).
    split; [|split; [contradiction|intros _; split; [assumption|]]].
    + unfold token_for. pose proof (symbol_type _ _ Esym) as Hty.
      destruct (type ty); try discriminate Hty; assumption.
    + now rewrite (symbol_literal _ _ Esym).
  - destruct (Ascii.eqb_spec (ch l1) NUL) as [E0|Hn].
    + (* end of the buffer *)
      exists l1, EOF_token, (readChar l1).
      do 2 (split; [reflexivity|]). split; [assumption|].
      split; [now apply consistent_readChar|].
      do 2 (split; [assumption|]). do 3 (split; [assumption|]).
      split; [now split|]. split; [reflexivity|contradiction].
    + destruct (isdigit (ch l1)) eqn:Ed.
      * (* a run of digits *)
        destruct (Hrun isdigit isdigit_NUL Ed)
          as (l2 & Hr & Hc2 & Hi2 & Hp & Hsub & Hlen).
        unfold readNumber. rewrite Hr. cbn [bind]. rewrite Hsub. cbn [bind].
        eexists l1, _, l2. do 2 (split; [reflexivity|]).
        do 2 (split; [assumption|]). do 2 (split; [assumption|]).
        do 3 (split; [assumption|]).
        split; [now split|]. split; [contradiction|intros _; now split].
      * destruct (is_ident_char (ch l1)) eqn:Ei.
        -- (* a run of letters and underscores *)
           destruct (Hrun is_ident_char is_ident_char_NUL Ei)
             as (l2 & Hr & Hc2 & Hi2 & Hp & Hsub & Hlen).
           unfold readIdentifier. rewrite Hr. cbn [bind]. rewrite Hsub. cbn [bind].
           destruct (String.eqb_spec (slice (input l) (position l1) (position l2)) "let")
             as [Elet|Nlet];
             (eexists l1, _, l2; do 2 (split; [reflexivity|]);
              do 2 (split; [assumption|]); do 2 (split; [assumption|]);
              do 3 (split; [assumption|]);
              split; [|split; [contradiction|intros _; now split]]).
           ++ now split.
           ++ split; [assumption|]. now split.
        -- (* anything else *)
           destruct (Hone Hn) as [Hp Hs].
           exists l1, (mkToken ILLEGAL (String (ch l1) "")), (readChar l1).
           do 2 (split; [reflexivity|]). split; [assumption|].
           split; [now apply consistent_readChar|].
           do 2 (split; [assumption|]). do 3 (split; [assumption|]).
           split; [|split; [contradiction|intros _; now split]].
           split; [|reflexivity]. unfold other_char.
           rewrite Hsp, Esym, Ed, Ei.
           destruct (Ascii.eqb_spec (ch l1) NUL); [contradiction|reflexivity].
Qed.

(** ** More fuel never changes an answer *)

Lemma nextToken_more_fuel (fuel fuel' : nat) (l : Lexer) (r : Token * Lexer) :
  nextToken fuel l = Ok r -> (fuel <= fuel')%nat -> nextToken fuel' l = Ok r.
Proof.
  intros H Hle. unfold nextToken, skipWhitespace in *.
  destruct (readWhile is_space fuel l) as [l1| |] eqn:E1; try discriminate.
  rewrite (readWhile_more_fuel _ _ _ _ _ E1 Hle). cbn [bind] in *.
  destruct (symbol (ch l1)); [assumption|].
  destruct (ch l1 =? NUL)%char; [assumption|].
  destruct (isdigit (ch l1)).
  - unfold readNumber in *.
    destruct (readWhile isdigit fuel l1) as [l2| |] eqn:E2; try discriminate.
    now rewrite (readWhile_more_fuel _ _ _ _ _ E2 Hle).
  - destruct (is_ident_char (ch l1)); [|assumption].
    unfold readIdentifier in *.
    destruct (readWhile is_ident_char fuel l1) as [l2| |] eqn:E2; try discriminate.
    now rewrite (readWhile_more_fuel _ _ _ _ _ E2 Hle).
Qed.

Lemma tokenize_more_fuel (fuel fuel' calls calls' : nat) (l : Lexer) (ts : list Token) :
  tokenize fuel calls l = Ok ts -> (fuel <= fuel')%nat -> (calls <= calls')%nat ->
  tokenize fuel' calls' l = Ok ts.
Proof.
  intros H Hf. revert calls' l ts H.
  induction calls as [|n IH]; intros calls' l ts H Hc; [discriminate|].
  destruct calls' as [|n']; [lia|]. simpl in *.
  destruct (nextToken fuel l) as [[tok l1]| |] eqn:E; try discriminate.
  rewrite (nextToken_more_fuel _ _ _ _ E Hf). cbn [bind] in *.
  destruct (TokenType_eqb (type tok) END_OF_FILE); [assumption|].
  destruct (tokenize fuel n l1) as [ts1| |] eqn:E1; try discriminate.
  rewrite (IH n' l1 ts1 E1) by lia. assumption.
Qed.

(** A call that returned obeys [nextToken_spec], whatever its fuel was. *)
Lemma nextToken_inv (fuel : nat) (l : Lexer) (tok : Token) (l2 : Lexer) :
  consistent l -> nextToken fuel l = Ok (tok, l2) ->
  exists l1,
    consistent l1 /\ consistent l2 /\
    input l1 = input l /\ input l2 = input l /\
    is_space (ch l1) = false /\
    position l <= position l1 /\
    (position l <= size (input l) -> position l1 <= size (input l)) /\
    token_for (ch l1) tok /\
    (ch l1 = NUL -> l2 = readChar l1) /\
    (ch l1 <> NUL ->
       position l1 < position l2 <= size (input l) /\
       literal tok = slice (input l) (position l1) (position l2)).
Proof.
  intros Hc H.
  destruct (nextToken_spec (Nat.max fuel (remaining l)) l Hc (Nat.le_max_r _ _))
    as (l1 & tok' & l2' & _ & Hn & Hrest).
  rewrite (nextToken_more_fuel _ _ _ _ H (Nat.le_max_l _ _)) in Hn.
  injection Hn as <- <-. exists l1. exact Hrest.
Qed.

(** ** Reachable states *)

Lemma reachable_consistent (inp : string) (l : Lexer) :
  valid_input inp -> reachable inp l -> consistent l /\ input l = inp.
Proof.
  intros Hv Hr. induction Hr as [|l fuel tok l' Hr [IHc IHi] Hn].
  - split; [now apply newLexer_consistent|reflexivity].
  - destruct (nextToken_inv fuel l tok l' IHc Hn) as (l1 & _ & Hc' & _ & Hi' & _).
    split; [assumption|congruence].
Qed.

Lemma run_reachable (inp : string) (fuel n : nat) (l l' : Lexer) (toks : list Token) :
  reachable inp l -> run fuel n l = Ok (toks, l') -> reachable inp l'.
Proof.
  revert l toks. induction n as [|n IH]; intros l toks Hr H; simpl in H.
  - now injection H as _ <-.
  - destruct (nextToken fuel l) as [[tok l1]| |] eqn:E; try discriminate.
    cbn [bind] in H.
    destruct (run fuel n l1) as [[ts l2]| |] eqn:E1; try discriminate.
    injection H as _ <-. eapply IH; [|exact E1].
    eapply reach_next; eassumption.
Qed.

(** ** Events *)

Lemma TokenType_eqb_eq (a b : TokenType) : TokenType_eqb a b = true <-> a = b.
Proof. destruct a, b; simpl; split; intros H; congruence. Qed.

Lemma append_empty_r (s : string) : (s ++ "")%string = s.
Proof. induction s as [|c s IH]; simpl; [reflexivity | now rewrite IH]. Qed.

Lemma token_for_NUL (tok : Token) : token_for NUL tok -> tok = EOF_token.
Proof.
  unfold token_for. destruct tok as [ty lit]. cbn [type literal].
  destruct ty; intros H; try discriminate H;
    try (destruct H as [H _]; discriminate H).
  destruct H as [_ ->]. reflexivity.
Qed.

Lemma token_for_not_eof (c : ascii) (tok : Token) :
  token_for c tok -> c <> NUL -> type tok <> END_OF_FILE.
Proof.
  unfold token_for. intros H Hc E. rewrite E in H. now destruct H.
Qed.

Lemma all_chars_substring (p : ascii -> bool) (s : string) (n m : nat) :
  (forall i c, (n <= i < n + m)%nat -> String.get i s = Some c -> p c = true) ->
  all_chars p (String.substring n m s) = true.
Proof.
  revert n m. induction s as [|a s IH]; intros n m H.
  - destruct n, m; reflexivity.
  - destruct n as [|n].
    + destruct m as [|m]; [reflexivity|]. simpl.
      rewrite (H O a) by (simpl; first [lia|reflexivity]).
      apply IH. intros i c Hi Hg. apply (H (S i) c); [lia|exact Hg].
    + simpl. apply IH. intros i c Hi Hg. apply (H (S i) c); [lia|exact Hg].
Qed.

Lemma all_chars_slice (p : ascii -> bool) (s : string) (a b : Z) :
  0 <= a ->
  (forall i, a <= i < b -> i < size s -> p (char_at s i) = true) ->
  all_chars p (slice s a b) = true.
Proof.
  intros Ha H. unfold slice. apply all_chars_substring.
  intros i c Hi Hg.
  assert (Hlt : (i < String.length s)%nat).
  { destruct (Nat.lt_ge_cases i (String.length s)) as [|Hge]; [assumption|].
    exfalso. revert Hge Hg. clear. revert i.
    induction s as [|x s IH]; intros i Hge Hg.
    - destruct i; discriminate.
    - destruct i as [|i]; simpl in *; [lia|]. apply (IH i); [lia|assumption]. }
  specialize (H (Z.of_nat i) ltac:(lia) ltac:(unfold size; lia)).
  unfold char_at in H. rewrite Nat2Z.id, Hg in H. exact H.
Qed.

(** The characters a loop moves over all satisfy its condition. *)
Lemma readWhile_chars (p : ascii -> bool) (fuel : nat) (l l' : Lexer) :
  p NUL = false -> consistent l -> readWhile p fuel l = Ok l' ->
  forall i, position l <= i < position l' -> p (char_at (input l) i) = true.
Proof.
  intros HN. revert l. induction fuel as [|f IH]; intros l Hc H i Hi; simpl in H.
  - destruct (p (ch l)); [discriminate|]. injection H as <-. lia.
  - destruct (p (ch l)) eqn:E; [|injection H as <-; lia].
    assert (Hn : ch l <> NUL) by (intros Z0; rewrite Z0 in E; congruence).
    pose proof (consistent_inside l Hc Hn) as Hin.
    pose proof (readChar_position l Hc ltac:(lia)) as Hp.
    destruct (Z.eq_dec i (position l)) as [->|Hne].
    + now rewrite <- (consistent_ch_inside l Hc Hin).
    + rewrite <- (readChar_input l).
      apply (IH (readChar l)); [now apply consistent_readChar|assumption|lia].
Qed.

Lemma trace_tokenize (fuel calls : nat) (l : Lexer) (evs : list Event) :
  trace fuel calls l = Ok evs -> tokenize fuel calls l = Ok (map emitted evs).
Proof.
  revert l evs. induction calls as [|n IH]; intros l evs H; [discriminate|].
  simpl in *. unfold nextEvent in H.
  destruct (skipWhitespace fuel l) as [l1| |]; try discriminate. cbn [bind] in H.
  destruct (nextToken fuel l) as [[tok l2]| |]; try discriminate.
  cbn [bind emitted] in *.
  destruct (TokenType_eqb (type tok) END_OF_FILE).
  - injection H as <-. reflexivity.
  - destruct (trace fuel n l2) as [evs'| |] eqn:E; try discriminate.
    rewrite (IH l2 evs' E). injection H as <-. reflexivity.
Qed.

(** The scan of an input without null byte, from any cursor position on
    the input: every call returns, the scan ends, and the events account
    for the rest of the input exactly. *)
Lemma trace_spec (fuel : nat) (calls : nat) (l : Lexer) :
  consistent l -> nul_free (input l) = true ->
  position l <= size (input l) ->
  (remaining l <= fuel)%nat -> (remaining l < calls)%nat ->
  exists evs,
    trace fuel calls l = Ok evs /\
    reassemble evs = slice (input l) (position l) (size (input l)) /\
    total_consumed evs = remaining l /\
    Forall (fun ev => all_chars is_space (skipped ev) = true) evs.
Proof.
  revert l. induction calls as [|n IH]; intros l Hc Hnf Hpos Hf Hn; [lia|].
  destruct (nextToken_spec fuel l Hc Hf)
    as (l1 & tok & l2 & Hskip & Hnext & Hc1 & Hc2 & Hi1 & Hi2 & Hsp & Hle & Hin
        & Htok & Heof & Hadv).
  specialize (Hin Hpos). pose proof (cons_position l Hc) as Hp0.
  assert (Hws : all_chars is_space (slice (input l) (position l) (position l1)) = true).
  { apply all_chars_slice; [lia|]. intros i Hi _.
    apply (readWhile_chars is_space fuel l l1 is_space_NUL Hc Hskip i Hi). }
  simpl. unfold nextEvent. rewrite Hskip, Hnext. cbn [bind emitted].
  destruct (Ascii.eqb_spec (ch l1) NUL) as [E0|Hne].
  - (* the end of the input *)
    rewrite E0 in Htok. apply token_for_NUL in Htok. subst tok.
    specialize (Heof E0). subst l2. cbn [TokenType_eqb EOF_token type].
    assert (Hend : position l1 = size (input l)).
    { destruct (Z.eq_dec (position l1) (size (input l))) as [|Hd]; [assumption|].
      exfalso. assert (Hlt : position l1 < size (input l1)) by (rewrite Hi1; lia).
      pose proof (consistent_ch_inside l1 Hc1 Hlt) as Hch.
      pose proof (cons_position l1 Hc1).
      apply (nul_free_char_at (input l1) (position l1));
        [now rewrite Hi1 | lia | congruence]. }
    eexists. split; [reflexivity|]. cbn [reassemble total_consumed skipped emitted consumed literal].
    rewrite (readChar_position l1 Hc1) by (rewrite Hi1; lia).
    rewrite Hend. split; [now rewrite append_empty_r|]. split.
    + rewrite slice_clamp by lia.
      pose proof (slice_length (input l) (position l) (size (input l))).
      unfold remaining. lia.
    + constructor; [|constructor]. cbn [skipped]. now rewrite <- Hend.
  - (* a token *)
    destruct (Hadv Hne) as [Hp2 Hlit].
    pose proof (token_for_not_eof _ _ Htok Hne) as Hty.
    destruct (TokenType_eqb (type tok) END_OF_FILE) eqn:Eeq;
      [apply TokenType_eqb_eq in Eeq; contradiction|].
    destruct (IH l2) as (evs & Htr & Hre & Hto & Hall).
    + assumption.
    + now rewrite Hi2.
    + rewrite Hi2. lia.
    + unfold remaining in *. rewrite Hi2. lia.
    + unfold remaining in *. rewrite Hi2. lia.
    + rewrite Htr. cbn [bind]. eexists. split; [reflexivity|].
      cbn [reassemble total_consumed skipped emitted consumed].
      rewrite Hre, Hto, Hi2, Hlit. split; [|split].
      * rewrite slice_split by lia. apply slice_split; lia.
      * pose proof (slice_length (input l) (position l) (position l2)).
        unfold remaining. rewrite Hi2. lia.
      * constructor; assumption.
Qed.

(** ** At the end of the buffer *)

Lemma skipWhitespace_id (fuel : nat) (l : Lexer) :
  is_space (ch l) = false -> skipWhitespace fuel l = Ok l.
Proof. intros H. unfold skipWhitespace. destruct fuel; simpl; now rewrite H. Qed.

Lemma nextToken_at_NUL (fuel : nat) (l : Lexer) :
  ch l = NUL -> nextToken fuel l = Ok (EOF_token, readChar l).
Proof.
  intros H. unfold nextToken. rewrite skipWhitespace_id by now rewrite H.
  cbn [bind]. rewrite H. reflexivity.
Qed.

Lemma nextToken_past_end (fuel : nat) (l : Lexer) :
  consistent l -> size (input l) <= position l ->
  nextToken fuel l = Ok (EOF_token, readChar l).
Proof.
  intros Hc Hp. apply nextToken_at_NUL. now apply consistent_ch_outside.
Qed.

Lemma past_end_0 (l : Lexer) :
  consistent l -> size (input l) <= position l -> past_end l 0 = l.
Proof.
  intros Hc Hp. pose proof (cons_readPosition l Hc) as Hr.
  pose proof (consistent_ch_outside l Hc Hp) as Hch.
  destruct l as [i p r c]. unfold past_end. simpl in *.
  rewrite Z.add_0_r. now subst.
Qed.

Lemma run_at_end (fuel k : nat) (l : Lexer) :
  consistent l -> size (input l) <= position l ->
  position l + Z.of_nat k < SIZE_MOD ->
  run fuel k l = Ok (repeat EOF_token k, past_end l (Z.of_nat k)).
Proof.
  revert l. induction k as [|k IH]; intros l Hc Hp Hk.
  - cbn [run repeat]. change (Z.of_nat 0) with 0. now rewrite past_end_0.
  - cbn [run repeat]. rewrite (nextToken_past_end fuel l Hc Hp). cbn [bind].
    pose proof (cons_position l Hc) as Hpos.
    assert (Hrp : readPosition l = position l + 1).
    { rewrite (cons_readPosition l Hc). apply wrap_small. lia. }
    rewrite IH.
    + cbn [bind]. do 2 f_equal. unfold past_end. cbn [readChar input position].
      rewrite Hrp. f_equal; [lia|f_equal; lia].
    + now apply consistent_readChar.
    + cbn [readChar input position]. lia.
    + cbn [readChar input position]. lia.
Qed.

(** ** How far one call moves the cursor *)

Lemma nextToken_position (fuel : nat) (l : Lexer) (tok : Token) (l' : Lexer) :
  consistent l -> nextToken fuel l = Ok (tok, l') ->
  position l + 1 < SIZE_MOD ->
  position l <= position l' <= Z.max (position l) (size (input l)) + 1.
Proof.
  intros Hc H Hb. pose proof (cons_position l Hc) as Hpos.
  destruct (Z.le_gt_cases (size (input l)) (position l)) as [Hge|Hlt].
  - rewrite (nextToken_past_end fuel l Hc Hge) in H. injection H as _ <-.
    cbn [readChar position]. rewrite (cons_readPosition l Hc).
    rewrite wrap_small by lia. lia.
  - destruct (nextToken_inv fuel l tok l' Hc H)
      as (l1 & Hc1 & _ & Hi1 & _ & _ & Hle & Hin & _ & Heof & Hadv).
    specialize (Hin ltac:(lia)).
    destruct (Ascii.eqb_spec (ch l1) NUL) as [E|E].
    + rewrite (Heof E). rewrite (readChar_position l1 Hc1) by (rewrite Hi1; lia).
      lia.
    + specialize (Hadv E). lia.
Qed.

Lemma run_total (fuel n : nat) (l : Lexer) :
  consistent l -> (String.length (input l) <= fuel)%nat ->
  exists toks l', run fuel n l = Ok (toks, l') /\ consistent l' /\ input l' = input l.
Proof.
  revert l. induction n as [|n IH]; intros l Hc Hf.
  - exists [], l. repeat split; try reflexivity; apply Hc.
  - assert (Hr : (remaining l <= fuel)%nat).
    { pose proof (cons_position l Hc). unfold remaining, size. lia. }
    destruct (nextToken_spec fuel l Hc Hr)
      as (l1 & tok & l2 & _ & Hn & _ & Hc2 & _ & Hi2 & _).
    destruct (IH l2 Hc2) as (toks & l' & Hrun & Hc' & Hi'); [now rewrite Hi2|].
    exists (tok :: toks), l'. cbn [run]. rewrite Hn. cbn [bind]. rewrite Hrun.
    split; [reflexivity|]. split; [assumption|congruence].
Qed.

Lemma run_position (fuel n : nat) (l l' : Lexer) (toks : list Token) (m : Z) :
  consistent l -> run fuel n l = Ok (toks, l') ->
  position l <= size (input l) + m -> 0 <= m ->
  size (input l) + m + Z.of_nat n + 1 < SIZE_MOD ->
  consistent l' /\ input l' = input l /\
  position l <= position l' <= size (input l) + m + Z.of_nat n.
Proof.
  revert l toks m. induction n as [|n IH]; intros l toks m Hc H Hp Hm Hb.
  - cbn [run] in H. injection H as _ <-. repeat split; try apply Hc; lia.
  - cbn [run] in H.
    destruct (nextToken fuel l) as [[tok l1]| |] eqn:E; try discriminate.
    cbn [bind] in H.
    destruct (run fuel n l1) as [[ts l2]| |] eqn:E1; try discriminate.
    injection H as _ <-.
    pose proof (nextToken_position fuel l tok l1 Hc E ltac:(lia)) as Hstep.
    destruct (nextToken_inv fuel l tok l1 Hc E) as (_ & _ & Hc1 & _ & Hi1 & _).
    destruct (IH l1 ts (m + 1) Hc1 E1) as (Hc2 & Hi2 & Hp2).
    + rewrite Hi1. lia.
    + lia.
    + rewrite Hi1. lia.
    + rewrite Hi1 in *. split; [assumption|]. split; [congruence|lia].
Qed.

(** ** The keyword test *)

Lemma nextToken_keyword (fuel : nat) (l : Lexer) (tok : Token) (l' : Lexer) :
  nextToken fuel l = Ok (tok, l') ->
  type tok = LET \/ type tok = IDENTIFIER ->
  (type tok = LET <-> literal tok = "let").
Proof.
  unfold nextToken. intros H Hty.
  destruct (skipWhitespace fuel l) as [l1| |]; try discriminate. cbn [bind] in H.
  destruct (symbol (ch l1)) as [sym|] eqn:Es.
  - injection H as <- _. apply symbol_type in Es.
    destruct Hty as [Hty|Hty]; rewrite Hty in Es; discriminate.
  - destruct (ch l1 =? NUL)%char.
    { injection H as <- _. destruct Hty; discriminate. }
    destruct (isdigit (ch l1)).
    { destruct (readNumber fuel l1) as [[num l2]| |]; try discriminate.
      injection H as <- _. destruct Hty; discriminate. }
    destruct (is_ident_char (ch l1)).
    + destruct (readIdentifier fuel l1) as [[ident l2]| |]; try discriminate.
      cbn [bind] in H. destruct (String.eqb_spec ident "let") as [E|E];
        injection H as <- _; cbn [type literal]; split; congruence.
    + injection H as <- _. destruct Hty; discriminate.
Qed.

(** * The claims *)

(** ** C1: the statement of the demonstration *)

(** C1. Calling [nextToken] again and again on [let x = 42 + (15 - 3)]
    yields LET "let", IDENTIFIER "x", EQUALS "=", NUMBER "42", PLUS "+",
    OPEN_PAREN "(", NUMBER "15", MINUS "-", NUMBER "3", CLOSE_PAREN ")" and
    then END_OF_FILE with the empty text, in this order and nothing else.
    Three loop iterations per call and eleven calls are enough, and any
    larger allowance gives the same tokens. *)
Theorem C1_let_statement_tokens (fuel calls : nat) :
  (3 <= fuel)%nat -> (11 <= calls)%nat ->
  tokenize fuel calls (newLexer let_statement) = Ok let_statement_tokens.
Proof.
  intros Hf Hc. apply (tokenize_more_fuel 3 fuel 11 calls); [|assumption..].
  vm_compute. reflexivity.
Qed.

Lemma C1_let_statement_tokens_witness :
  tokenize 3 11 (newLexer let_statement) = Ok let_statement_tokens.
Proof. apply C1_let_statement_tokens; lia. Defined.

(** ** C2 and C3: accounting for every character *)

(** C2, at an input with a null byte. On the three bytes [a], [\0], [b]
    the lexer returns IDENTIFIER "a" and then, standing on the null byte,
    END_OF_FILE: the texts and the skipped whitespace up to the first
    END_OF_FILE make "a", not the input. *)
Lemma C2_nul_byte_breaks_roundtrip :
  valid_input nul_input /\
  tokenize 1 2 (newLexer nul_input) = Ok [mkToken IDENTIFIER "a"; EOF_token] /\
  exists evs,
    trace 1 2 (newLexer nul_input) = Ok evs /\
    reassemble evs = "a" /\
    reassemble evs <> nul_input.
Proof.
  split; [reflexivity|]. split; [vm_compute; reflexivity|].
  eexists. split; [vm_compute; reflexivity|].
  split; [reflexivity|discriminate].
Qed.

(** C2, amended. For every input string without a null byte, the scan up
    to the first END_OF_FILE returns (with one loop iteration and one call
    per input character, plus one call), its events carry the tokens of
    the successive calls, every skipped stretch is whitespace only, and the
    skipped stretches and token texts concatenated in order are the input. *)
Theorem C2_roundtrip (inp : string) (fuel calls : nat) :
  valid_input inp -> nul_free inp = true ->
  (String.length inp <= fuel)%nat -> (String.length inp < calls)%nat ->
  exists evs,
    trace fuel calls (newLexer inp) = Ok evs /\
    tokenize fuel calls (newLexer inp) = Ok (map emitted evs) /\
    Forall (fun ev => all_chars is_space (skipped ev) = true) evs /\
    reassemble evs = inp.
Proof.
  intros Hv Hnf Hf Hc.
  destruct (trace_spec fuel calls (newLexer inp)) as (evs & Htr & Hre & _ & Hall).
  - now apply newLexer_consistent.
  - exact Hnf.
  - simpl. apply size_nonneg.
  - unfold remaining. simpl. unfold size. lia.
  - unfold remaining. simpl. unfold size. lia.
  - exists evs. split; [assumption|]. split; [now apply trace_tokenize|].
    split; [assumption|]. rewrite Hre. simpl. now apply slice_all.
Qed.

Lemma C2_roundtrip_witness :
  exists evs,
    trace 21 22 (newLexer let_statement) = Ok evs /\
    tokenize 21 22 (newLexer let_statement) = Ok (map emitted evs) /\
    Forall (fun ev => all_chars is_space (skipped ev) = true) evs /\
    reassemble evs = let_statement.
Proof.
  apply C2_roundtrip; [reflexivity | reflexivity | simpl; lia | simpl; lia].
Defined.

(** C3, at an input with a null byte. On the three bytes [a], [\0], [b]
    the cursor has moved over two characters when the first END_OF_FILE is
    returned, and the input has three. *)
Lemma C3_nul_byte_stops_early :
  valid_input nul_input /\
  exists evs,
    trace 1 2 (newLexer nul_input) = Ok evs /\
    total_consumed evs = 2%nat /\
    total_consumed evs <> String.length nul_input.
Proof.
  split; [reflexivity|].
  eexists. split; [vm_compute; reflexivity|].
  split; [reflexivity|discriminate].
Qed.

(** C3, amended. For every input string without a null byte, the number
    of input characters the cursor moves over during the calls up to and
    including the first one that returns END_OF_FILE is the length of the
    input. *)
Theorem C3_consumes_whole_input (inp : string) (fuel calls : nat) :
  valid_input inp -> nul_free inp = true ->
  (String.length inp <= fuel)%nat -> (String.length inp < calls)%nat ->
  exists evs,
    trace fuel calls (newLexer inp) = Ok evs /\
    total_consumed evs = String.length inp.
Proof.
  intros Hv Hnf Hf Hc.
  destruct (trace_spec fuel calls (newLexer inp)) as (evs & Htr & _ & Hto & _).
  - now apply newLexer_consistent.
  - exact Hnf.
  - simpl. apply size_nonneg.
  - unfold remaining. simpl. unfold size. lia.
  - unfold remaining. simpl. unfold size. lia.
  - exists evs. split; [assumption|]. rewrite Hto.
    unfold remaining. simpl. unfold size. lia.
Qed.

Lemma C3_consumes_whole_input_witness :
  exists evs,
    trace 21 22 (newLexer let_statement) = Ok evs /\
    total_consumed evs = String.length let_statement.
Proof.
  apply C3_consumes_whole_input;
    [reflexivity | reflexivity | simpl; lia | simpl; lia].
Defined.

(** ** C4: after END_OF_FILE *)

Lemma nul_free_at_NUL (l : Lexer) :
  consistent l -> nul_free (input l) = true -> ch l = NUL ->
  size (input l) <= position l.
Proof.
  intros Hc Hnf Hch.
  destruct (Z.le_gt_cases (size (input l)) (position l)) as [|Hlt]; [assumption|].
  exfalso. pose proof (cons_position l Hc).
  apply (nul_free_char_at (input l) (position l) Hnf); [lia|].
  now rewrite <- (consistent_ch_inside l Hc Hlt).
Qed.

Lemma eof_reaches_end (fuel : nat) (l : Lexer) (tok : Token) (l1 : Lexer) :
  consistent l -> nul_free (input l) = true ->
  nextToken fuel l = Ok (tok, l1) -> type tok = END_OF_FILE ->
  position l + 1 < SIZE_MOD ->
  tok = EOF_token /\ consistent l1 /\ input l1 = input l /\
  size (input l) < position l1 <= Z.max (position l) (size (input l)) + 1.
Proof.
  intros Hc Hnf H Hty Hb.
  pose proof (nextToken_position fuel l tok l1 Hc H Hb) as Hp.
  destruct (nextToken_inv fuel l tok l1 Hc H)
    as (l0 & Hc0 & Hc1 & Hi0 & Hi1 & _ & Hle & Hin & Htok & Heof & _).
  unfold token_for in Htok. rewrite Hty in Htok. destruct Htok as [Hch Hlit].
  split; [destruct tok; cbn [type literal] in *; now subst|].
  do 2 (split; [assumption|]). split; [|lia].
  rewrite (Heof Hch). rewrite <- Hi0 in Hnf.
  pose proof (nul_free_at_NUL l0 Hc0 Hnf Hch) as Hend. rewrite Hi0 in Hend.
  cbn [readChar position]. rewrite (cons_readPosition l0 Hc0).
  pose proof (cons_position l0 Hc0). pose proof (wrap_range (position l0 + 1)).
  destruct (Z.eq_dec (position l0 + 1) SIZE_MOD) as [E|E].
  - rewrite Heof in Hp by assumption. cbn [readChar position] in Hp.
    rewrite (cons_readPosition l0 Hc0), E in Hp.
    pose proof (cons_input l Hc) as Hv. unfold valid_input in Hv.
    replace (wrap SIZE_MOD) with 0 in Hp by reflexivity.
    pose proof (cons_position l Hc). pose proof (size_nonneg (input l)). lia.
  - rewrite wrap_small by lia. lia.
Qed.

(** C4, at an input with a null byte. On the three bytes [a], [\0], [b]
    the second call returns END_OF_FILE and the third IDENTIFIER "b". *)
Lemma C4_token_after_eof :
  valid_input nul_input /\
  exists l,
    run 1 3 (newLexer nul_input)
    = Ok ([mkToken IDENTIFIER "a"; EOF_token; mkToken IDENTIFIER "b"], l).
Proof.
  split; [reflexivity|]. eexists. vm_compute. reflexivity.
Qed.

(** C4, amended. For every input string without a null byte: once a call,
    made after any [n] earlier calls, has returned END_OF_FILE, that token
    has the empty text and each of the next [k] calls returns, and returns
    END_OF_FILE with the empty text, provided [readPosition] has not
    overflowed, which [size + n + k + 2 < 2^64] ensures. *)
Theorem C4_eof_repeats (inp : string) (fuel n k : nat)
        (toks : list Token) (l : Lexer) (tok : Token) (l1 : Lexer) :
  valid_input inp -> nul_free inp = true ->
  run fuel n (newLexer inp) = Ok (toks, l) ->
  nextToken fuel l = Ok (tok, l1) -> type tok = END_OF_FILE ->
  size inp + Z.of_nat n + Z.of_nat k + 2 < SIZE_MOD ->
  tok = EOF_token /\
  forall fuel', exists l', run fuel' k l1 = Ok (repeat EOF_token k, l').
Proof.
  intros Hv Hnf Hrun Hn Hty Hb.
  pose proof (size_nonneg inp) as Hs.
  destruct (run_position fuel n (newLexer inp) l toks 0) as (Hc & Hi & Hp);
    [ now apply newLexer_consistent | assumption
    | simpl; lia | lia | simpl; lia | ].
  simpl in Hi, Hp.
  destruct (eof_reaches_end fuel l tok l1 Hc) as (Ht & Hc1 & Hi1 & Hp1);
    try assumption; try (rewrite Hi; assumption); try lia.
  rewrite Hi in *. split; [assumption|]. intros fuel'.
  eexists. apply run_at_end; [assumption | rewrite Hi1; lia | lia].
Qed.

Lemma C4_eof_repeats_witness :
  EOF_token = EOF_token /\
  forall fuel', exists l',
    run fuel' 5 (readChar (newLexer "")) = Ok (repeat EOF_token 5, l').
Proof.
  apply (C4_eof_repeats "" 0 0 5 [] (newLexer "") EOF_token (readChar (newLexer "")));
    reflexivity.
Defined.

(** ** C5: the cursor at the end of the buffer *)

(** C5, on the empty input. The first call returns END_OF_FILE and moves
    [position] from 0 to 1 and [readPosition] from 1 to 2. *)
Lemma C5_eof_moves_cursor :
  ch (newLexer "") = NUL /\
  position (newLexer "") = 0 /\ readPosition (newLexer "") = 1 /\
  exists l',
    nextToken 0 (newLexer "") = Ok (EOF_token, l') /\
    position l' = 1 /\ readPosition l' = 2 /\
    position l' <> position (newLexer "") /\
    readPosition l' <> readPosition (newLexer "").
Proof.
  do 3 (split; [reflexivity|]). eexists.
  split; [vm_compute; reflexivity|].
  repeat split; discriminate.
Qed.

Lemma skipWhitespace_consistent (fuel : nat) (l l1 : Lexer) :
  consistent l -> skipWhitespace fuel l = Ok l1 ->
  consistent l1 /\ input l1 = input l /\ position l <= position l1.
Proof.
  intros Hc H. unfold skipWhitespace in H.
  destruct (readWhile_spec is_space (Nat.max fuel (remaining l)) l
              is_space_NUL Hc (Nat.le_max_r _ _))
    as (l2 & H2 & Hc2 & Hi2 & _ & Hle & _).
  rewrite (readWhile_more_fuel _ _ _ _ _ H (Nat.le_max_l _ _)) in H2.
  injection H2 as <-. exact (conj Hc2 (conj Hi2 Hle)).
Qed.

(** C5, amended. In every reachable state the whitespace loop of a call
    returns. When the character it stops on, at position [p], is the
    sentinel, the call returns END_OF_FILE with the empty text after one
    more [readChar]: it leaves [position] at [p + 1] and [readPosition] at
    [p + 2], modulo 2^64, where [p] is not before the position the call
    started from. When [p] is at or past the end of the input, each of the
    next [k] calls returns END_OF_FILE too and moves both fields by one,
    the current character staying the sentinel, as long as
    [p + 1 + k < 2^64]. *)
Theorem C5_eof_steps_cursor (inp : string) (l : Lexer) :
  valid_input inp -> reachable inp l ->
  (forall fuel, (remaining l <= fuel)%nat ->
     exists l1, skipWhitespace fuel l = Ok l1) /\
  (forall fuel l1,
     skipWhitespace fuel l = Ok l1 -> ch l1 = NUL ->
     exists l',
       nextToken fuel l = Ok (EOF_token, l') /\
       position l <= position l1 /\
       position l' = wrap (position l1 + 1) /\
       readPosition l' = wrap (position l1 + 2) /\
       forall k : nat,
         size inp <= position l1 -> position l1 + 1 + Z.of_nat k < SIZE_MOD ->
         exists l'',
           run fuel k l' = Ok (repeat EOF_token k, l'') /\
           position l'' = position l1 + 1 + Z.of_nat k /\
           readPosition l'' = wrap (position l1 + 2 + Z.of_nat k) /\
           ch l'' = NUL).
Proof.
  intros Hv Hr. destruct (reachable_consistent inp l Hv Hr) as [Hc Hi]. split.
  - intros fuel Hf.
    destruct (readWhile_spec is_space fuel l is_space_NUL Hc Hf) as (l1 & H1 & _).
    now exists l1.
  - intros fuel l1 Hs Hch.
    destruct (skipWhitespace_consistent fuel l l1 Hc Hs) as (Hc1 & Hi1 & Hle).
    pose proof (cons_position l1 Hc1) as Hpos.
    pose proof (cons_readPosition l1 Hc1) as Hrp.
    exists (readChar l1). split.
    { unfold nextToken. rewrite Hs. cbn [bind]. rewrite Hch. reflexivity. }
    split; [assumption|]. split; [exact Hrp|]. split.
    { cbn [readChar readPosition]. rewrite Hrp. unfold wrap.
      rewrite Z.add_mod_idemp_l by (rewrite SIZE_MOD_eq; lia).
      f_equal. lia. }
    intros k Hend Hk.
    assert (Hp1 : position (readChar l1) = position l1 + 1).
    { cbn [readChar position]. rewrite Hrp. apply wrap_small. lia. }
    exists (past_end (readChar l1) (Z.of_nat k)). split.
    { apply run_at_end.
      - now apply consistent_readChar.
      - rewrite readChar_input, Hi1, Hi, Hp1. lia.
      - rewrite Hp1. lia. }
    unfold past_end. cbn [position readPosition ch]. rewrite Hp1.
    split; [reflexivity|]. split; [f_equal; lia|reflexivity].
Qed.

Lemma C5_eof_steps_cursor_witness :
  (exists l1, skipWhitespace 1 (newLexer " ") = Ok l1) /\
  exists l',
    nextToken 1 (newLexer " ") = Ok (EOF_token, l') /\
    position (newLexer " ") <= position (readChar (newLexer " ")) /\
    position l' = wrap (position (readChar (newLexer " ")) + 1) /\
    readPosition l' = wrap (position (readChar (newLexer " ")) + 2) /\
    forall k : nat,
      size " " <= position (readChar (newLexer " ")) ->
      position (readChar (newLexer " ")) + 1 + Z.of_nat k < SIZE_MOD ->
      exists l'',
        run 1 k l' = Ok (repeat EOF_token k, l'') /\
        position l'' = position (readChar (newLexer " ")) + 1 + Z.of_nat k /\
        readPosition l''
        = wrap (position (readChar (newLexer " ")) + 2 + Z.of_nat k) /\
        ch l'' = NUL.
Proof.
  split.
  - apply (proj1 (C5_eof_steps_cursor " " (newLexer " ") eq_refl (reach_new " "))).
    vm_compute. lia.
  - apply (proj2 (C5_eof_steps_cursor " " (newLexer " ") eq_refl (reach_new " "))
             1%nat (readChar (newLexer " "))); reflexivity.
Defined.

(** ** C6: unrecognised bytes *)

(** C6. At a byte that is neither whitespace, nor the sentinel, nor one of
    the seven symbols, nor a digit, nor a letter or an underscore,
    [nextToken] returns an ILLEGAL token whose text is that one byte, and
    the cursor is one character further: [position] and [readPosition]
    have both grown by one. *)
Theorem C6_illegal_byte (inp : string) (l : Lexer) (fuel : nat) (c : ascii) :
  valid_input inp -> reachable inp l -> ch l = c -> other_char c = true ->
  nextToken fuel l = Ok (mkToken ILLEGAL (String c ""), readChar l) /\
  position (readChar l) = position l + 1 /\
  readPosition (readChar l) = readPosition l + 1.
Proof.
  intros Hv Hr Hch Ho. destruct (reachable_consistent inp l Hv Hr) as [Hc Hi].
  unfold other_char in Ho. rewrite <- Hch in *.
  repeat (apply andb_true_iff in Ho as [Ho ?]).
  repeat match goal with H : negb _ = true |- _ => apply negb_true_iff in H end.
  assert (Hn : ch l <> NUL) by now apply Ascii.eqb_neq.
  pose proof (consistent_inside l Hc Hn) as Hin.
  pose proof (cons_position l Hc) as Hp.
  pose proof (cons_input l Hc) as Hvi. unfold valid_input in Hvi.
  split; [|split].
  - unfold nextToken. rewrite skipWhitespace_id by assumption. cbn [bind].
    destruct (symbol (ch l)); [discriminate|].
    repeat match goal with H : _ = false |- _ => rewrite H end. reflexivity.
  - apply readChar_position; [assumption|lia].
  - cbn [readChar readPosition]. rewrite (cons_readPosition l Hc).
    rewrite (wrap_small (position l + 1)) by lia. apply wrap_small. lia.
Qed.

Lemma C6_illegal_byte_witness :
  nextToken 0 (newLexer "@")
  = Ok (mkToken ILLEGAL "@", readChar (newLexer "@")) /\
  position (readChar (newLexer "@")) = position (newLexer "@") + 1 /\
  readPosition (readChar (newLexer "@")) = readPosition (newLexer "@") + 1.
Proof.
  apply (C6_illegal_byte "@" (newLexer "@") 0 "@"%char);
    [reflexivity | apply reach_new | reflexivity | reflexivity].
Defined.

(** ** C7: the keyword *)

(** C7. The input "letx" yields one IDENTIFIER with the text "letx" and
    then END_OF_FILE, and whenever a call returns a LET or an IDENTIFIER
    token, it is LET if and only if its text is exactly "let". *)
Theorem C7_keyword_is_exact :
  (forall fuel calls : nat, (4 <= fuel)%nat -> (2 <= calls)%nat ->
     tokenize fuel calls (newLexer "letx")
     = Ok [mkToken IDENTIFIER "letx"; EOF_token]) /\
  (forall (fuel : nat) (l : Lexer) (tok : Token) (l' : Lexer),
     nextToken fuel l = Ok (tok, l') ->
     type tok = LET \/ type tok = IDENTIFIER ->
     (type tok = LET <-> literal tok = "let")).
Proof.
  split.
  - intros fuel calls Hf Hc.
    apply (tokenize_more_fuel 4 fuel 2 calls); [|assumption..].
    vm_compute. reflexivity.
  - exact nextToken_keyword.
Qed.

Lemma C7_keyword_is_exact_witness :
  tokenize 4 2 (newLexer "letx") = Ok [mkToken IDENTIFIER "letx"; EOF_token] /\
  (type (mkToken LET "let") = LET <-> literal (mkToken LET "let") = "let").
Proof.
  split.
  - apply (proj1 C7_keyword_is_exact); lia.
  - apply (proj2 C7_keyword_is_exact 3%nat (newLexer "let") (mkToken LET "let")
             (readChar (readChar (readChar (newLexer "let")))));
      [reflexivity | left; reflexivity].
Defined.

(** ** C8: the cursor invariant *)

(** C8, on the empty input. After [2^64 - 1] calls [position] is
    [2^64 - 1] and [readPosition] has overflowed to 0, so
    [position < readPosition] fails; the next call takes [position] back
    to 0. *)
Lemma C8_overflow :
  valid_input "" /\
  exists toks l,
    run 0 overflow_calls (newLexer "") = Ok (toks, l) /\
    position l = SIZE_MOD - 1 /\ readPosition l = 0 /\
    ~ position l < readPosition l /\
    exists l', nextToken 0 l = Ok (EOF_token, l') /\ ~ position l <= position l'.
Proof.
  split; [reflexivity|].
  assert (Hk : Z.of_nat overflow_calls = SIZE_MOD - 1).
  { unfold overflow_calls. apply Z2Nat.id. rewrite SIZE_MOD_eq. lia. }
  exists (repeat EOF_token overflow_calls),
         (past_end (newLexer "") (Z.of_nat overflow_calls)).
  split.
  - apply run_at_end.
    + now apply newLexer_consistent.
    + reflexivity.
    + rewrite Hk. reflexivity.
  - rewrite Hk. unfold past_end. cbn [position readPosition].
    split; [reflexivity|]. split; [reflexivity|].
    split; [apply Z.le_ngt; discriminate|].
    eexists. split; [apply nextToken_at_NUL; reflexivity|].
    cbn [readChar position readPosition]. apply Z.lt_nge. reflexivity.
Qed.

(** C8, amended. After the constructor and after each of the first [n]
    calls, which all return, [readPosition] is [position + 1], hence
    [position < readPosition], and the next call returns and does not move
    [position] back, as long as [readPosition] has not overflowed, which
    [size + n + 1 < 2^64] ensures. *)
Theorem C8_cursor_invariant (inp : string) (fuel n : nat) :
  valid_input inp -> (String.length inp <= fuel)%nat ->
  size inp + Z.of_nat n + 1 < SIZE_MOD ->
  exists toks l,
    run fuel n (newLexer inp) = Ok (toks, l) /\
    readPosition l = position l + 1 /\
    position l < readPosition l /\
    exists tok l', nextToken fuel l = Ok (tok, l') /\ position l <= position l'.
Proof.
  intros Hv Hf Hb. pose proof (size_nonneg inp) as Hs.
  destruct (run_total fuel n (newLexer inp)) as (toks & l & Hrun & Hc & Hi);
    [now apply newLexer_consistent | assumption |].
  destruct (run_position fuel n (newLexer inp) l toks 0) as (_ & _ & Hp);
    [ now apply newLexer_consistent | assumption
    | simpl; lia | lia | simpl; lia | ].
  simpl in Hi, Hp. pose proof (cons_position l Hc) as Hpos.
  assert (Hrp : readPosition l = position l + 1).
  { rewrite (cons_readPosition l Hc). apply wrap_small. lia. }
  exists toks, l. split; [assumption|]. split; [assumption|]. split; [lia|].
  destruct (run_total fuel 1 l Hc) as (ts & l' & Hone & _); [now rewrite Hi|].
  cbn [run] in Hone.
  destruct (nextToken fuel l) as [[tok l1]| |] eqn:E; try discriminate.
  exists tok, l1. split; [reflexivity|].
  apply (nextToken_position fuel l tok l1 Hc E). lia.
Qed.

Lemma C8_cursor_invariant_witness :
  exists toks l,
    run 21 4 (newLexer let_statement) = Ok (toks, l) /\
    readPosition l = position l + 1 /\
    position l < readPosition l /\
    exists tok l', nextToken 21 l = Ok (tok, l') /\ position l <= position l'.
Proof.
  apply (C8_cursor_invariant let_statement 21 4);
    [reflexivity | simpl; lia | reflexivity].
Defined.

(** ** C9: termination *)

(** C9. In every state reachable from the constructor, each of the three
    loops stops within as many iterations as there are characters left in
    the input, and [nextToken] returns a token with that allowance or any
    larger one: it neither runs forever nor throws, and it leaves a state
    that is reachable again. *)
Theorem C9_nextToken_terminates (inp : string) (l : Lexer) :
  valid_input inp -> reachable inp l ->
  (exists l', skipWhitespace (remaining l) l = Ok l') /\
  (exists l', readWhile isdigit (remaining l) l = Ok l') /\
  (exists l', readWhile is_ident_char (remaining l) l = Ok l') /\
  (remaining l <= String.length inp)%nat /\
  forall fuel, (remaining l <= fuel)%nat ->
    exists tok l', nextToken fuel l = Ok (tok, l') /\ reachable inp l'.
Proof.
  intros Hv Hr. destruct (reachable_consistent inp l Hv Hr) as [Hc Hi].
  assert (Hloop : forall p, p NUL = false ->
            exists l', readWhile p (remaining l) l = Ok l').
  { intros p Hp.
    destruct (readWhile_spec p (remaining l) l Hp Hc (Nat.le_refl _))
      as (l' & H & _). now exists l'. }
  split; [exact (Hloop is_space is_space_NUL)|].
  split; [exact (Hloop isdigit isdigit_NUL)|].
  split; [exact (Hloop is_ident_char is_ident_char_NUL)|].
  split.
  - pose proof (cons_position l Hc). unfold remaining, size. rewrite Hi. lia.
  - intros fuel Hf.
    destruct (nextToken_spec fuel l Hc Hf) as (l1 & tok & l2 & _ & Hn & _).
    exists tok, l2. split; [assumption|]. eapply reach_next; eassumption.
Qed.

Lemma C9_nextToken_terminates_witness :
  (exists l', skipWhitespace (remaining (newLexer "  42")) (newLexer "  42") = Ok l') /\
  (exists l', readWhile isdigit (remaining (newLexer "  42")) (newLexer "  42") = Ok l') /\
  (exists l', readWhile is_ident_char (remaining (newLexer "  42")) (newLexer "  42") = Ok l') /\
  (remaining (newLexer "  42") <= String.length "  42")%nat /\
  forall fuel, (remaining (newLexer "  42") <= fuel)%nat ->
    exists tok l', nextToken fuel (newLexer "  42") = Ok (tok, l') /\
                   reachable "  42" l'.
Proof.
  apply (C9_nextToken_terminates "  42" (newLexer "  42"));
    [reflexivity | apply reach_new].
Defined.

(** ** C10: the text of a token *)

Lemma token_for_text (c : ascii) (tok : Token) :
  token_for c tok ->
  (literal tok = "" <-> type tok = END_OF_FILE) /\
  (type tok = NUMBER \/ type tok = IDENTIFIER \/ type tok = LET ->
     (1 <= String.length (literal tok))%nat) /\
  (is_symbol_type (type tok) = true ->
     symbol c = Some tok /\ literal tok = String c "") /\
  (type tok = ILLEGAL -> literal tok = String c "").
Proof.
  unfold token_for. intros H.
  assert (Hsym : symbol c = Some tok -> literal tok = String c "")
    by apply symbol_literal.
  destruct tok as [ty lit]. cbn [type literal] in *.
  destruct ty; cbn [is_symbol_type];
    repeat match goal with
           | H : _ /\ _ |- _ => destruct H
           end;
    try (specialize (Hsym H));
    repeat split; intros;
    repeat match goal with
           | E : _ \/ _ |- _ => destruct E
           end;
    try split;
    first [ discriminate | reflexivity | assumption | congruence
          | (subst; cbn in *; lia) ].
Qed.

(** C10. In every reachable state a call returns a token whose text is
    empty exactly when its kind is END_OF_FILE: a NUMBER, IDENTIFIER or LET
    token has at least one character, a symbol token has the one character
    of its symbol, and an ILLEGAL token has one character. *)
Theorem C10_text_empty_iff_eof (inp : string) (l : Lexer) (fuel : nat) :
  valid_input inp -> reachable inp l -> (remaining l <= fuel)%nat ->
  exists tok l',
    nextToken fuel l = Ok (tok, l') /\
    (literal tok = "" <-> type tok = END_OF_FILE) /\
    (type tok = NUMBER \/ type tok = IDENTIFIER \/ type tok = LET ->
       (1 <= String.length (literal tok))%nat) /\
    (is_symbol_type (type tok) = true ->
       exists c, symbol c = Some tok /\ literal tok = String c "") /\
    (type tok = ILLEGAL -> exists c, literal tok = String c "").
Proof.
  intros Hv Hr Hf. destruct (reachable_consistent inp l Hv Hr) as [Hc Hi].
  destruct (nextToken_spec fuel l Hc Hf)
    as (l1 & tok & l2 & _ & Hn & _ & _ & _ & _ & _ & _ & _ & Htok & _).
  destruct (token_for_text _ _ Htok) as (H1 & H2 & H3 & H4).
  exists tok, l2. split; [assumption|]. split; [assumption|].
  split; [assumption|]. split.
  - intros E. exists (ch l1). now apply H3.
  - intros E. exists (ch l1). now apply H4.
Qed.

Lemma C10_text_empty_iff_eof_witness :
  exists tok l',
    nextToken 2 (newLexer "42") = Ok (tok, l') /\
    (literal tok = "" <-> type tok = END_OF_FILE) /\
    (type tok = NUMBER \/ type tok = IDENTIFIER \/ type tok = LET ->
       (1 <= String.length (literal tok))%nat) /\
    (is_symbol_type (type tok) = true ->
       exists c, symbol c = Some tok /\ literal tok = String c "") /\
    (type tok = ILLEGAL -> exists c, literal tok = String c "").
Proof.
  apply (C10_text_empty_iff_eof "42" (newLexer "42") 2);
    [reflexivity | apply reach_new | vm_compute; lia].
Defined.

(** * Further properties *)

(** ** The character classes are disjoint *)

Ltac by_all_bytes c :=
  destruct c as [[] [] [] [] [] [] [] []]; vm_compute;
  intros; repeat split; congruence.

Lemma class_digit (c : ascii) :
  isdigit c = true ->
  symbol c = None /\ c <> NUL /\ is_space c = false /\
  is_ident_char c = false /\ other_char c = false.
Proof. by_all_bytes c. Qed.

Lemma class_ident (c : ascii) :
  is_ident_char c = true ->
  symbol c = None /\ c <> NUL /\ is_space c = false /\
  isdigit c = false /\ other_char c = false.
Proof. by_all_bytes c. Qed.

Lemma class_symbol (c : ascii) (tok : Token) :
  symbol c = Some tok ->
  c <> NUL /\ is_space c = false /\ isdigit c = false /\
  is_ident_char c = false /\ other_char c = false.
Proof. by_all_bytes c. Qed.

Lemma class_other (c : ascii) :
  other_char c = true ->
  symbol c = None /\ c <> NUL /\ is_space c = false /\
  isdigit c = false /\ is_ident_char c = false.
Proof. by_all_bytes c. Qed.

Lemma all_chars_impl (p q : ascii -> bool) (s : string) :
  (forall c, p c = true -> q c = true) ->
  all_chars p s = true -> all_chars q s = true.
Proof.
  intros Hpq. induction s as [|c s IH]; simpl; [reflexivity|].
  intros H. apply andb_true_iff in H as [Hc Hs].
  now rewrite (Hpq c Hc), IH.
Qed.

(** ** A call, case by case *)

Lemma nextToken_cases (fuel : nat) (l : Lexer) (tok : Token) (l' : Lexer) :
  nextToken fuel l = Ok (tok, l') ->
  exists l1,
    skipWhitespace fuel l = Ok l1 /\
    ((symbol (ch l1) = Some tok /\ l' = readChar l1) \/
     (ch l1 = NUL /\ tok = EOF_token /\ l' = readChar l1) \/
     (isdigit (ch l1) = true /\ type tok = NUMBER /\
      readNumber fuel l1 = Ok (literal tok, l')) \/
     (is_ident_char (ch l1) = true /\
      (type tok = LET \/ type tok = IDENTIFIER) /\
      readIdentifier fuel l1 = Ok (literal tok, l')) \/
     (other_char (ch l1) = true /\
      tok = mkToken ILLEGAL (String (ch l1) "") /\ l' = readChar l1)).
Proof.
  unfold nextToken. intros H.
  destruct (skipWhitespace fuel l) as [l1| |] eqn:Es; try discriminate.
  cbn [bind] in H. exists l1. split; [reflexivity|].
  assert (Hsp : is_space (ch l1) = false).
  { clear H. unfold skipWhitespace in Es. revert l Es.
    induction fuel as [|f IH]; intros l Es; simpl in Es;
      destruct (is_space (ch l)) eqn:E; try discriminate.
    - now injection Es as <-.
    - eauto.
    - now injection Es as <-. }
  destruct (symbol (ch l1)) as [sym|] eqn:Esym.
  { injection H as <- <-. left. now split. }
  destruct (Ascii.eqb_spec (ch l1) NUL) as [E0|Hn].
  { injection H as <- <-. right. left. now repeat split. }
  destruct (isdigit (ch l1)) eqn:Ed.
  { destruct (readNumber fuel l1) as [[num l2]| |] eqn:Er; try discriminate.
    injection H as <- <-. right. right. left. now repeat split. }
  destruct (is_ident_char (ch l1)) eqn:Ei.
  { destruct (readIdentifier fuel l1) as [[ident l2]| |] eqn:Er; try discriminate.
    cbn [bind] in H. right. right. right. left.
    destruct (ident =? "let")%string; injection H as <- <-;
      (split; [reflexivity|]); (split; [|reflexivity]); [left|right]; reflexivity. }
  injection H as <- <-. do 4 right. split; [|now split].
  unfold other_char. rewrite Hsp, Esym, Ed, Ei.
  destruct (Ascii.eqb_spec (ch l1) NUL); [contradiction|reflexivity].
Qed.

Lemma readWhile_inv (p : ascii -> bool) (fuel : nat) (l l' : Lexer) :
  p NUL = false -> consistent l -> readWhile p fuel l = Ok l' ->
  consistent l' /\ input l' = input l /\ p (ch l') = false /\
  position l <= position l' /\
  (position l <= size (input l) -> position l' <= size (input l)) /\
  (p (ch l) = true -> position l < position l').
Proof.
  intros HN Hc H.
  destruct (readWhile_spec p (Nat.max fuel (remaining l)) l HN Hc (Nat.le_max_r _ _))
    as (l2 & H2 & Hrest).
  rewrite (readWhile_more_fuel _ _ _ _ _ H (Nat.le_max_l _ _)) in H2.
  injection H2 as <-. exact Hrest.
Qed.

(** The text of a run: what [readNumber] and [readIdentifier] return. *)
Lemma run_text (p : ascii -> bool) (fuel : nat) (l1 l2 : Lexer) (s : string) :
  p NUL = false -> consistent l1 -> p (ch l1) = true ->
  (l' <- readWhile p fuel l1 ;;
   s <- substr (input l') (position l1) (wrap (position l' - position l1)) ;;
   Ok (s, l')) = Ok (s, l2) ->
  consistent l2 /\ input l2 = input l1 /\
  position l1 < position l2 <= size (input l1) /\
  s = slice (input l1) (position l1) (position l2) /\
  all_chars p s = true /\ p (ch l2) = false.
Proof.
  intros HN Hc Hp H.
  destruct (readWhile p fuel l1) as [l'| |] eqn:Er; try discriminate.
  cbn [bind] in H.
  destruct (readWhile_inv p fuel l1 l' HN Hc Er) as (Hc' & Hi & Hstop & Hle & Hin & Hlt).
  assert (Hn : ch l1 <> NUL) by (intros E; rewrite E in Hp; congruence).
  pose proof (consistent_inside l1 Hc Hn) as Hlt1.
  specialize (Hin ltac:(lia)). specialize (Hlt Hp).
  pose proof (cons_position l1 Hc). pose proof (cons_position l' Hc').
  rewrite Hi, substr_slice in H by lia. cbn [bind] in H.
  injection H as <- <-.
  do 2 (split; [assumption|]). split; [lia|]. split; [reflexivity|].
  split; [|assumption].
  apply all_chars_slice; [lia|]. intros i Hi' _.
  exact (readWhile_chars p fuel l1 l' HN Hc Er i Hi').
Qed.

Lemma skipWhitespace_inv (fuel : nat) (l l1 : Lexer) :
  consistent l -> skipWhitespace fuel l = Ok l1 ->
  consistent l1 /\ input l1 = input l /\ is_space (ch l1) = false /\
  position l <= position l1 /\
  (position l <= size (input l) -> position l1 <= size (input l)).
Proof.
  intros Hc H.
  destruct (readWhile_inv is_space fuel l l1 is_space_NUL Hc H)
    as (H1 & H2 & H3 & H4 & H5 & _).
  exact (conj H1 (conj H2 (conj H3 (conj H4 H5)))).
Qed.

(** ** The state between calls *)

(** X7. In every state a client can observe, the lexer still holds the
    text it was built from, [ch] is the character of that text at
    [position], or the null character when [position] is not an index of
    the text, and [readPosition] is [position + 1] modulo 2^64. *)
Theorem X7_state_invariant (inp : string) (l : Lexer) :
  valid_input inp -> reachable inp l ->
  input l = inp /\
  0 <= position l < SIZE_MOD /\
  readPosition l = wrap (position l + 1) /\
  ch l = (if position l <? size inp then char_at inp (position l) else NUL).
Proof.
  intros Hv Hr. destruct (reachable_consistent inp l Hv Hr) as [Hc Hi].
  split; [assumption|]. split; [exact (cons_position l Hc)|].
  split; [exact (cons_readPosition l Hc)|].
  rewrite <- Hi. exact (cons_ch l Hc).
Qed.

Lemma X7_state_invariant_witness :
  input (readChar (newLexer "a+")) = "a+" /\
  0 <= position (readChar (newLexer "a+")) < SIZE_MOD /\
  readPosition (readChar (newLexer "a+"))
  = wrap (position (readChar (newLexer "a+")) + 1) /\
  ch (readChar (newLexer "a+"))
  = (if position (readChar (newLexer "a+")) <? size "a+"
     then char_at "a+" (position (readChar (newLexer "a+"))) else NUL).
Proof.
  apply (X7_state_invariant "a+" (readChar (newLexer "a+"))); [reflexivity|].
  apply (reach_next "a+" (newLexer "a+") 1 (mkToken IDENTIFIER "a"));
    [apply reach_new | reflexivity].
Defined.

(** ** The text of a token *)

(** X5. In every reachable state a call returns, keeps the input text, and,
    unless it returns END_OF_FILE, moves the cursor forward within the
    input and returns as text exactly the characters of the input that end
    at the new cursor. *)
Theorem X5_text_ends_at_cursor (inp : string) (l : Lexer) (fuel : nat) :
  valid_input inp -> reachable inp l -> (remaining l <= fuel)%nat ->
  exists tok l',
    nextToken fuel l = Ok (tok, l') /\ input l' = inp /\
    (type tok <> END_OF_FILE ->
       position l < position l' <= size inp /\
       literal tok
       = slice inp (position l' - Z.of_nat (String.length (literal tok)))
                   (position l')).
Proof.
  intros Hv Hr Hf. destruct (reachable_consistent inp l Hv Hr) as [Hc Hi].
  destruct (nextToken_spec fuel l Hc Hf)
    as (l1 & tok & l2 & _ & Hn & Hc1 & _ & _ & Hi2 & _ & Hle & _ & Htok & _ & Hadv).
  exists tok, l2. split; [assumption|]. split; [congruence|]. intros Hty.
  assert (Hne : ch l1 <> NUL).
  { intros E. rewrite E in Htok. apply token_for_NUL in Htok. now subst tok. }
  destruct (Hadv Hne) as [Hp Hlit]. rewrite Hi in *.
  pose proof (cons_position l Hc). split; [lia|].
  pose proof (slice_length inp (position l1) (position l2) ltac:(lia) ltac:(lia)) as Hlen.
  rewrite <- Hlit in Hlen. rewrite Hlen.
  replace (position l2 - (position l2 - position l1)) with (position l1) by lia.
  exact Hlit.
Qed.

Lemma X5_text_ends_at_cursor_witness :
  exists tok l',
    nextToken 4 (newLexer "  42") = Ok (tok, l') /\ input l' = "  42" /\
    (type tok <> END_OF_FILE ->
       position (newLexer "  42") < position l' <= size "  42" /\
       literal tok
       = slice "  42" (position l' - Z.of_nat (String.length (literal tok)))
                      (position l')).
Proof.
  apply (X5_text_ends_at_cursor "  42" (newLexer "  42") 4);
    [reflexivity | apply reach_new | vm_compute; lia].
Defined.

Lemma token_text_clean (fuel : nat) (l : Lexer) (tok : Token) (l' : Lexer) :
  consistent l -> nextToken fuel l = Ok (tok, l') ->
  all_chars (fun c => negb (is_space c) && negb (c =? NUL)%char) (literal tok)
  = true.
Proof.
  intros Hc H.
  destruct (nextToken_cases fuel l tok l' H) as (l1 & Hs & Hcases).
  destruct (skipWhitespace_inv fuel l l1 Hc Hs) as (Hc1 & _ & Hsp & _).
  assert (Hone : ch l1 <> NUL ->
            all_chars (fun c => negb (is_space c) && negb (c =? NUL)%char)
                      (String (ch l1) "") = true).
  { intros Hn. cbn [all_chars]. rewrite Hsp.
    destruct (Ascii.eqb_spec (ch l1) NUL); [contradiction|reflexivity]. }
  destruct Hcases as [[Hsym _]|[(_ & -> & _)|[(Hd & _ & Hr)|[(Hi & _ & Hr)|(Ho & -> & _)]]]].
  - rewrite (symbol_literal _ _ Hsym). apply Hone.
    now destruct (class_symbol _ _ Hsym).
  - reflexivity.
  - destruct (run_text isdigit fuel l1 l' (literal tok) isdigit_NUL Hc1 Hd Hr)
      as (_ & _ & _ & _ & Hall & _).
    revert Hall. apply all_chars_impl. intros c Hcd.
    destruct (class_digit c Hcd) as (_ & Hn & -> & _).
    destruct (Ascii.eqb_spec c NUL); [contradiction|reflexivity].
  - destruct (run_text is_ident_char fuel l1 l' (literal tok) is_ident_char_NUL Hc1 Hi Hr)
      as (_ & _ & _ & _ & Hall & _).
    revert Hall. apply all_chars_impl. intros c Hcd.
    destruct (class_ident c Hcd) as (_ & Hn & -> & _).
    destruct (Ascii.eqb_spec c NUL); [contradiction|reflexivity].
  - cbn [literal]. apply Hone. now destruct (class_other _ Ho).
Qed.

(** X6. In every reachable state a call returns a token whose text holds
    no whitespace character and no null character. *)
Theorem X6_text_has_no_blank (inp : string) (l : Lexer) (fuel : nat) :
  valid_input inp -> reachable inp l -> (remaining l <= fuel)%nat ->
  exists tok l',
    nextToken fuel l = Ok (tok, l') /\
    all_chars (fun c => negb (is_space c) && negb (c =? NUL)%char) (literal tok)
    = true.
Proof.
  intros Hv Hr Hf. destruct (reachable_consistent inp l Hv Hr) as [Hc Hi].
  destruct (nextToken_spec fuel l Hc Hf) as (l1 & tok & l2 & _ & Hn & _).
  exists tok, l2. split; [assumption|].
  exact (token_text_clean fuel l tok l2 Hc Hn).
Qed.

Lemma X6_text_has_no_blank_witness :
  exists tok l',
    nextToken 6 (newLexer " a_b c") = Ok (tok, l') /\
    all_chars (fun c => negb (is_space c) && negb (c =? NUL)%char) (literal tok)
    = true.
Proof.
  apply (X6_text_has_no_blank " a_b c" (newLexer " a_b c") 6);
    [reflexivity | apply reach_new | vm_compute; lia].
Defined.

(** ** Maximal munch *)

Lemma number_token (fuel : nat) (l : Lexer) (tok : Token) (l' : Lexer) :
  consistent l -> nextToken fuel l = Ok (tok, l') -> type tok = NUMBER ->
  exists l1,
    skipWhitespace fuel l = Ok l1 /\ isdigit (ch l1) = true /\
    consistent l' /\ all_chars isdigit (literal tok) = true /\
    isdigit (ch l') = false.
Proof.
  intros Hc H Hty.
  destruct (nextToken_cases fuel l tok l' H) as (l1 & Hs & Hcases).
  destruct (skipWhitespace_inv fuel l l1 Hc Hs) as (Hc1 & _).
  exists l1. split; [assumption|].
  destruct Hcases as [[Hsym _]|[(_ & -> & _)|[(Hd & _ & Hr)|[(_ & [E|E] & _)|(_ & -> & _)]]]];
    try discriminate; try congruence.
  - apply symbol_type in Hsym. rewrite Hty in Hsym. discriminate.
  - destruct (run_text isdigit fuel l1 l' (literal tok) isdigit_NUL Hc1 Hd Hr)
      as (Hc' & _ & _ & _ & Hall & Hstop).
    now repeat (split; [assumption|]).
Qed.

Lemma identifier_token (fuel : nat) (l : Lexer) (tok : Token) (l' : Lexer) :
  consistent l -> nextToken fuel l = Ok (tok, l') ->
  type tok = IDENTIFIER \/ type tok = LET ->
  exists l1,
    skipWhitespace fuel l = Ok l1 /\ is_ident_char (ch l1) = true /\
    consistent l' /\ all_chars is_ident_char (literal tok) = true /\
    is_ident_char (ch l') = false.
Proof.
  intros Hc H Hty.
  destruct (nextToken_cases fuel l tok l' H) as (l1 & Hs & Hcases).
  destruct (skipWhitespace_inv fuel l l1 Hc Hs) as (Hc1 & _).
  exists l1. split; [assumption|].
  destruct Hcases as [[Hsym _]|[(_ & -> & _)|[(_ & E & _)|[(Hi & _ & Hr)|(_ & -> & _)]]]].
  - apply symbol_type in Hsym. destruct Hty as [E|E]; rewrite E in Hsym; discriminate.
  - destruct Hty; discriminate.
  - destruct Hty; congruence.
  - destruct (run_text is_ident_char fuel l1 l' (literal tok) is_ident_char_NUL Hc1 Hi Hr)
      as (Hc' & _ & _ & _ & Hall & Hstop).
    now repeat (split; [assumption|]).
  - destruct Hty; discriminate.
Qed.

(** X3. A NUMBER token returned in a reachable state has a text made of
    decimal digits only and leaves the lexer on a character that is not a
    digit; so when the very next call returns a NUMBER too, whitespace
    stood between the two. *)
Theorem X3_number_is_maximal (inp : string) (l : Lexer) (fuel : nat)
        (tok : Token) (l' : Lexer) :
  valid_input inp -> reachable inp l ->
  nextToken fuel l = Ok (tok, l') -> type tok = NUMBER ->
  all_chars isdigit (literal tok) = true /\
  isdigit (ch l') = false /\
  forall fuel' tok' l'',
    nextToken fuel' l' = Ok (tok', l'') -> type tok' = NUMBER ->
    is_space (ch l') = true.
Proof.
  intros Hv Hr H Hty. destruct (reachable_consistent inp l Hv Hr) as [Hc Hi].
  destruct (number_token fuel l tok l' Hc H Hty) as (l1 & _ & _ & Hc' & Hall & Hstop).
  do 2 (split; [assumption|]). intros fuel' tok' l'' H' Hty'.
  destruct (number_token fuel' l' tok' l'' Hc' H' Hty') as (l2 & Hs & Hd & _).
  destruct (is_space (ch l')) eqn:E; [reflexivity|].
  rewrite (skipWhitespace_id fuel' l' E) in Hs. injection Hs as <-. congruence.
Qed.

Lemma X3_number_is_maximal_witness :
  all_chars isdigit (literal (mkToken NUMBER "12")) = true /\
  isdigit (ch (readChar (readChar (newLexer "12 34")))) = false /\
  forall fuel' tok' l'',
    nextToken fuel' (readChar (readChar (newLexer "12 34"))) = Ok (tok', l'') ->
    type tok' = NUMBER ->
    is_space (ch (readChar (readChar (newLexer "12 34")))) = true.
Proof.
  apply (X3_number_is_maximal "12 34" (newLexer "12 34") 2 (mkToken NUMBER "12"));
    [reflexivity | apply reach_new | reflexivity | reflexivity].
Defined.

(** X4. An IDENTIFIER or LET token returned in a reachable state has a
    text made of letters and underscores only (no digit) and leaves the
    lexer on a character that is neither; so when the very next call
    returns an IDENTIFIER or LET too, whitespace stood between the two. *)
Theorem X4_identifier_is_maximal (inp : string) (l : Lexer) (fuel : nat)
        (tok : Token) (l' : Lexer) :
  valid_input inp -> reachable inp l ->
  nextToken fuel l = Ok (tok, l') ->
  type tok = IDENTIFIER \/ type tok = LET ->
  all_chars is_ident_char (literal tok) = true /\
  all_chars (fun c => negb (isdigit c)) (literal tok) = true /\
  is_ident_char (ch l') = false /\
  forall fuel' tok' l'',
    nextToken fuel' l' = Ok (tok', l'') ->
    type tok' = IDENTIFIER \/ type tok' = LET ->
    is_space (ch l') = true.
Proof.
  intros Hv Hr H Hty. destruct (reachable_consistent inp l Hv Hr) as [Hc Hi].
  destruct (identifier_token fuel l tok l' Hc H Hty)
    as (l1 & _ & _ & Hc' & Hall & Hstop).
  split; [assumption|]. split.
  { revert Hall. apply all_chars_impl. intros c Hci.
    now destruct (class_ident c Hci) as (_ & _ & _ & -> & _). }
  split; [assumption|]. intros fuel' tok' l'' H' Hty'.
  destruct (identifier_token fuel' l' tok' l'' Hc' H' Hty') as (l2 & Hs & Hd & _).
  destruct (is_space (ch l')) eqn:E; [reflexivity|].
  rewrite (skipWhitespace_id fuel' l' E) in Hs. injection Hs as <-. congruence.
Qed.

Lemma X4_identifier_is_maximal_witness :
  all_chars is_ident_char (literal (mkToken IDENTIFIER "x")) = true /\
  all_chars (fun c => negb (isdigit c)) (literal (mkToken IDENTIFIER "x")) = true /\
  is_ident_char (ch (readChar (newLexer "x1"))) = false /\
  forall fuel' tok' l'',
    nextToken fuel' (readChar (newLexer "x1")) = Ok (tok', l'') ->
    type tok' = IDENTIFIER \/ type tok' = LET ->
    is_space (ch (readChar (newLexer "x1"))) = true.
Proof.
  apply (X4_identifier_is_maximal "x1" (newLexer "x1") 1 (mkToken IDENTIFIER "x"));
    [reflexivity | apply reach_new | reflexivity | left; reflexivity].
Defined.

(** ** The kind of a token *)

Lemma token_for_kind (c : ascii) (tok : Token) :
  token_for c tok ->
  (type tok = END_OF_FILE <-> c = NUL) /\
  (type tok = NUMBER <-> isdigit c = true) /\
  (type tok = IDENTIFIER \/ type tok = LET <-> is_ident_char c = true) /\
  (is_symbol_type (type tok) = true <-> symbol c <> None) /\
  (type tok = ILLEGAL <-> other_char c = true).
Proof.
  unfold token_for. intros H.
  pose proof (class_digit c) as Hd. pose proof (class_ident c) as Hi.
  pose proof (class_other c) as Ho.
  assert (Hs : symbol c <> None -> c <> NUL /\ isdigit c = false /\
                 is_ident_char c = false /\ other_char c = false).
  { destruct (symbol c) as [t|] eqn:E; [|congruence]. intros _.
    destruct (class_symbol c t E) as (? & _ & ? & ? & ?). now repeat split. }
  assert (H0 : c = NUL -> symbol c = None /\ isdigit c = false /\
                 is_ident_char c = false /\ other_char c = false).
  { intros ->. now repeat split. }
  destruct tok as [ty lit]. cbn [type literal] in *.
  destruct ty; cbn [is_symbol_type];
    repeat match goal with
           | H : _ /\ _ |- _ => destruct H
           end;
    repeat split; intros;
    repeat match goal with
           | E : _ \/ _ |- _ => destruct E
           end;
    try discriminate; try congruence; try (left; reflexivity);
    try (right; reflexivity);
    exfalso;
    first [ destruct (Hd ltac:(assumption)) as (? & ? & ? & ? & ?); congruence
          | destruct (Hi ltac:(assumption)) as (? & ? & ? & ? & ?); congruence
          | destruct (Ho ltac:(assumption)) as (? & ? & ? & ? & ?); congruence
          | destruct (Hs ltac:(assumption)) as (? & ? & ? & ?); congruence
          | destruct (Hs ltac:(congruence)) as (? & ? & ? & ?); congruence
          | destruct (H0 ltac:(assumption)) as (? & ? & ? & ?); congruence ].
Qed.

(** X8. In every reachable state the kind of the token a call returns is
    decided by the first character after the skipped whitespace alone: the
    null character gives END_OF_FILE, a digit NUMBER, a letter or an
    underscore IDENTIFIER or LET, one of the seven symbols its symbol
    token, and any other character ILLEGAL, and conversely. *)
Theorem X8_kind_by_first_char (inp : string) (l : Lexer) (fuel : nat) :
  valid_input inp -> reachable inp l -> (remaining l <= fuel)%nat ->
  exists l1 tok l',
    skipWhitespace fuel l = Ok l1 /\ nextToken fuel l = Ok (tok, l') /\
    is_space (ch l1) = false /\
    (type tok = END_OF_FILE <-> ch l1 = NUL) /\
    (type tok = NUMBER <-> isdigit (ch l1) = true) /\
    (type tok = IDENTIFIER \/ type tok = LET <-> is_ident_char (ch l1) = true) /\
    (is_symbol_type (type tok) = true <-> symbol (ch l1) <> None) /\
    (type tok = ILLEGAL <-> other_char (ch l1) = true).
Proof.
  intros Hv Hr Hf. destruct (reachable_consistent inp l Hv Hr) as [Hc Hi].
  destruct (nextToken_spec fuel l Hc Hf)
    as (l1 & tok & l2 & Hs & Hn & _ & _ & _ & _ & Hsp & _ & _ & Htok & _).
  exists l1, tok, l2. do 3 (split; [assumption|]).
  exact (token_for_kind _ _ Htok).
Qed.

Lemma X8_kind_by_first_char_witness :
  exists l1 tok l',
    skipWhitespace 3 (newLexer " 7*") = Ok l1 /\
    nextToken 3 (newLexer " 7*") = Ok (tok, l') /\
    is_space (ch l1) = false /\
    (type tok = END_OF_FILE <-> ch l1 = NUL) /\
    (type tok = NUMBER <-> isdigit (ch l1) = true) /\
    (type tok = IDENTIFIER \/ type tok = LET <-> is_ident_char (ch l1) = true) /\
    (is_symbol_type (type tok) = true <-> symbol (ch l1) <> None) /\
    (type tok = ILLEGAL <-> other_char (ch l1) = true).
Proof.
  apply (X8_kind_by_first_char " 7*" (newLexer " 7*") 3);
    [reflexivity | apply reach_new | vm_compute; lia].
Defined.

(** ** Labels *)

(** X1. The labels [tokenTypeToString] gives to the twelve token kinds are
    pairwise different, and none of them is the "UNKNOWN" of the [default]
    label. *)
Theorem X1_labels_are_distinct :
  (forall a b : TokenType, tokenTypeToString a = tokenTypeToString b -> a = b) /\
  (forall a : TokenType, tokenTypeToString a <> "UNKNOWN").
Proof.
  split.
  - intros a b H. destruct a, b; first [reflexivity | discriminate H].
  - intros a. destruct a; discriminate.
Qed.

Lemma X1_labels_are_distinct_witness :
  END_OF_FILE = END_OF_FILE /\ tokenTypeToString ILLEGAL <> "UNKNOWN".
Proof.
  split.
  - apply (proj1 X1_labels_are_distinct END_OF_FILE END_OF_FILE). reflexivity.
  - apply (proj2 X1_labels_are_distinct).
Defined.

(** ** The loop of [main] *)

(** The scan from any cursor position on the input, null bytes or not:
    it ends with END_OF_FILE after at most one token per character left. *)
Lemma tokenize_spec (fuel calls : nat) (l : Lexer) :
  consistent l -> position l <= size (input l) ->
  (remaining l <= fuel)%nat -> (remaining l < calls)%nat ->
  exists toks,
    tokenize fuel calls l = Ok (toks ++ [EOF_token])%list /\
    Forall (fun tok => type tok <> END_OF_FILE) toks /\
    (List.length toks <= remaining l)%nat.
Proof.
  revert l. induction calls as [|n IH]; intros l Hc Hpos Hf Hn; [lia|].
  destruct (nextToken_spec fuel l Hc Hf)
    as (l1 & tok & l2 & _ & Hnext & Hc1 & Hc2 & Hi1 & Hi2 & _ & Hle & Hin
        & Htok & _ & Hadv).
  specialize (Hin Hpos). pose proof (cons_position l Hc) as Hp0.
  cbn [tokenize]. rewrite Hnext. cbn [bind].
  destruct (Ascii.eqb_spec (ch l1) NUL) as [E0|Hne].
  - rewrite E0 in Htok. apply token_for_NUL in Htok. subst tok.
    exists []. cbn. split; [reflexivity|]. split; [constructor|lia].
  - destruct (Hadv Hne) as [Hp2 _].
    pose proof (token_for_not_eof _ _ Htok Hne) as Hty.
    destruct (TokenType_eqb (type tok) END_OF_FILE) eqn:Eeq;
      [apply TokenType_eqb_eq in Eeq; contradiction|].
    destruct (IH l2) as (toks & Htk & Hall & Hlen).
    + assumption.
    + rewrite Hi2. lia.
    + unfold remaining in *. rewrite Hi2. lia.
    + unfold remaining in *. rewrite Hi2. lia.
    + exists (tok :: toks). rewrite Htk. cbn [bind app].
      split; [reflexivity|]. split; [now constructor|].
      cbn [List.length]. unfold remaining in *. rewrite Hi2 in Hlen. lia.
Qed.

Lemma tokenize_step (fuel calls : nat) (l : Lexer) :
  tokenize fuel (S calls) l
  = ('(tok, l1) <- nextToken fuel l ;;
     if TokenType_eqb (type tok) END_OF_FILE then Ok [tok]
     else toks <- tokenize fuel calls l1 ;; Ok (tok :: toks)).
Proof. reflexivity. Qed.

Lemma main_loop_prints (fuel : nat) (calls : nat) (l : Lexer)
      (tok : Token) (l1 : Lexer) (toks : list Token) :
  nextToken fuel l = Ok (tok, l1) ->
  tokenize fuel (S calls) l = Ok toks ->
  main_loop fuel calls tok l1 = Ok (print_tokens (removelast toks)).
Proof.
  revert l tok l1 toks. induction calls as [|n IH]; intros l tok l1 toks Hn Ht;
    rewrite tokenize_step, Hn in Ht; cbn [bind] in Ht;
    cbn [main_loop];
    destruct (TokenType_eqb (type tok) END_OF_FILE) eqn:Ee.
  - assert (toks = [tok]) by congruence. now subst.
  - discriminate.
  - assert (toks = [tok]) by congruence. now subst.
  - destruct (tokenize fuel (S n) l1) as [toks1| |] eqn:E1; try discriminate.
    cbn [bind] in Ht. injection Ht as <-.
    pose proof E1 as E1'. rewrite tokenize_step in E1'.
    destruct (nextToken fuel l1) as [[t l2]| |] eqn:E2; try discriminate.
    cbn [bind] in *. rewrite (IH l1 t l2 toks1 E2 E1). cbn [bind].
    destruct toks1 as [|t1 ts]; [|reflexivity].
    destruct (TokenType_eqb (type t) END_OF_FILE); [discriminate|].
    destruct (tokenize fuel n l2); discriminate.
Qed.

(** X12. On every input, with null bytes or without, calling [nextToken]
    until it answers END_OF_FILE ends within one call per input character
    plus one: the tokens are at most as many as the characters, none of
    them END_OF_FILE, followed by one END_OF_FILE with the empty text. *)
Theorem X12_scan_ends (inp : string) (fuel calls : nat) :
  valid_input inp ->
  (String.length inp <= fuel)%nat -> (String.length inp < calls)%nat ->
  exists toks,
    tokenize fuel calls (newLexer inp) = Ok (toks ++ [EOF_token])%list /\
    Forall (fun tok => type tok <> END_OF_FILE) toks /\
    (List.length toks <= String.length inp)%nat.
Proof.
  intros Hv Hf Hc.
  assert (Hr : remaining (newLexer inp) = String.length inp).
  { unfold remaining. simpl. unfold size. lia. }
  destruct (tokenize_spec fuel calls (newLexer inp)) as (toks & H1 & H2 & H3).
  - now apply newLexer_consistent.
  - simpl. apply size_nonneg.
  - lia.
  - lia.
  - exists toks. rewrite Hr in H3. now repeat split.
Qed.

Lemma X12_scan_ends_witness :
  exists toks,
    tokenize 3 4 (newLexer nul_input) = Ok (toks ++ [EOF_token])%list /\
    Forall (fun tok => type tok <> END_OF_FILE) toks /\
    (List.length toks <= String.length nul_input)%nat.
Proof.
  apply (X12_scan_ends nul_input 3 4); [reflexivity | simpl; lia | simpl; lia].
Defined.

(** X2. For every input text the body of [main] ends with status 0,
    having written one line, of the form
    [Type: <label>, Literal: '<text>'], for each token that precedes the
    first END_OF_FILE, in order, and nothing for END_OF_FILE itself; on an
    input without any token it writes nothing. The program itself, on its
    fixed statement, writes ten lines. *)
Theorem X2_main_prints_tokens :
  (forall (inp : string) (fuel calls : nat),
     valid_input inp ->
     (String.length inp <= fuel)%nat -> (String.length inp <= calls)%nat ->
     exists toks,
       tokenize fuel (S calls) (newLexer inp) = Ok (toks ++ [EOF_token])%list /\
       Forall (fun tok => type tok <> END_OF_FILE) toks /\
       main_on inp fuel calls = Ok (print_tokens toks, 0)) /\
  (forall fuel calls : nat, (21 <= fuel)%nat -> (21 <= calls)%nat ->
     main fuel calls
     = Ok (print_tokens (removelast let_statement_tokens), 0)) /\
  List.length (removelast let_statement_tokens) = 10%nat.
Proof.
  assert (Hgen : forall (inp : string) (fuel calls : nat),
     valid_input inp ->
     (String.length inp <= fuel)%nat -> (String.length inp <= calls)%nat ->
     exists toks,
       tokenize fuel (S calls) (newLexer inp) = Ok (toks ++ [EOF_token])%list /\
       Forall (fun tok => type tok <> END_OF_FILE) toks /\
       main_on inp fuel calls = Ok (print_tokens toks, 0)).
  { intros inp fuel calls Hv Hf Hc.
    assert (Hr : remaining (newLexer inp) = String.length inp).
    { unfold remaining. simpl. unfold size. lia. }
    destruct (tokenize_spec fuel (S calls) (newLexer inp)) as (toks & H1 & H2 & _);
      [ now apply newLexer_consistent | simpl; apply size_nonneg | lia | lia | ].
    exists toks. do 2 (split; [assumption|]).
    unfold main_on.
    destruct (nextToken fuel (newLexer inp)) as [[tok l1]| |] eqn:E.
    - cbn [bind]. rewrite (main_loop_prints fuel calls _ tok l1 _ E H1).
      cbn [bind]. now rewrite removelast_last.
    - cbn [tokenize] in H1. rewrite E in H1. discriminate.
    - cbn [tokenize] in H1. rewrite E in H1. discriminate. }
  split; [exact Hgen|]. split; [|reflexivity].
  intros fuel calls Hf Hc. unfold main.
  destruct (Hgen let_statement fuel calls) as (toks & H1 & _ & H3);
    [reflexivity | simpl; lia | simpl; lia |].
  rewrite (tokenize_more_fuel 3 fuel 11 (S calls) _ let_statement_tokens) in H1;
    [ | vm_compute; reflexivity | lia | lia ].
  injection H1 as H1. rewrite H3. rewrite H1. now rewrite removelast_last.
Qed.

Lemma X2_main_prints_tokens_witness :
  (exists toks,
     tokenize 1 2 (newLexer "@") = Ok (toks ++ [EOF_token])%list /\
     Forall (fun tok => type tok <> END_OF_FILE) toks /\
     main_on "@" 1 1 = Ok (print_tokens toks, 0)) /\
  main 21 21 = Ok (print_tokens (removelast let_statement_tokens), 0).
Proof.
  split.
  - apply (proj1 X2_main_prints_tokens "@" 1%nat 1%nat);
      [reflexivity | simpl; lia | simpl; lia].
  - apply (proj1 (proj2 X2_main_prints_tokens)); lia.
Defined.

(** ** The scan depends on the text from the cursor on only *)

Lemma size_app (a b : string) : size (a ++ b) = size a + size b.
Proof.
  unfold size. induction a as [|c a IH]; simpl String.length; [lia|].
  rewrite !Nat2Z.inj_succ. cbn [String.length] in IH. lia.
Qed.

Lemma get_app_shift (pre s : string) (n : nat) :
  String.get (String.length pre + n) (pre ++ s) = String.get n s.
Proof. induction pre as [|c pre IH]; simpl; [reflexivity|exact IH]. Qed.

Lemma get_app_left (pre s : string) (n : nat) :
  (n < String.length pre)%nat -> String.get n (pre ++ s) = String.get n pre.
Proof.
  revert n. induction pre as [|c pre IH]; intros n H; simpl in *; [lia|].
  destruct n as [|n]; [reflexivity|]. apply IH. lia.
Qed.

Lemma char_at_shift (pre s : string) (i : Z) :
  0 <= i -> char_at (pre ++ s) (size pre + i) = char_at s i.
Proof.
  intros Hi. unfold char_at, size.
  replace (Z.to_nat (Z.of_nat (String.length pre) + i))
    with (String.length pre + Z.to_nat i)%nat by lia.
  now rewrite get_app_shift.
Qed.

Lemma char_at_left (pre s : string) (i : Z) :
  0 <= i < size pre -> char_at (pre ++ s) i = char_at pre i.
Proof.
  intros Hi. unfold char_at, size in *. rewrite get_app_left by lia. reflexivity.
Qed.

Lemma substring_app_shift (pre s : string) (n m : nat) :
  String.substring (String.length pre + n) m (pre ++ s) = String.substring n m s.
Proof. induction pre as [|c pre IH]; simpl; [reflexivity|exact IH]. Qed.

Lemma slice_shift (pre s : string) (a b : Z) :
  0 <= a -> slice (pre ++ s) (size pre + a) (size pre + b) = slice s a b.
Proof.
  intros Ha. unfold slice, size.
  replace (Z.to_nat (Z.of_nat (String.length pre) + a))
    with (String.length pre + Z.to_nat a)%nat by lia.
  rewrite substring_app_shift. do 2 f_equal. lia.
Qed.

Lemma all_chars_char_at (p : ascii -> bool) (s : string) (i : Z) :
  all_chars p s = true -> 0 <= i < size s -> p (char_at s i) = true.
Proof.
  intros Hs Hi. unfold char_at, size in *.
  destruct (get_lt s (Z.to_nat i)) as [c Hc]; [lia|]. rewrite Hc.
  clear Hi. revert Hs Hc. generalize (Z.to_nat i). clear i.
  induction s as [|a s IH]; intros n Hs Hc.
  - destruct n; discriminate.
  - simpl in Hs. apply andb_true_iff in Hs as [Ha Hs].
    destruct n as [|n]; simpl in Hc; [now injection Hc as <-|eauto].
Qed.

Lemma lexer_at_consistent (inp : string) (p : Z) :
  valid_input inp -> 0 <= p < SIZE_MOD -> consistent (lexer_at inp p).
Proof. intros Hv Hp. constructor; simpl; try assumption; reflexivity. Qed.

Lemma consistent_lexer_at (l : Lexer) :
  consistent l -> l = lexer_at (input l) (position l).
Proof.
  intros Hc. pose proof (cons_readPosition l Hc) as Hr.
  pose proof (cons_ch l Hc) as Hch.
  destruct l as [i p r c]. unfold lexer_at. simpl in *. now subst.
Qed.

Lemma shifted_ch (pre : string) (l lp : Lexer) :
  shifted pre l lp -> ch lp = ch l.
Proof.
  intros [Hi Hp Hin Hc Hcp]. pose proof (cons_position l Hc) as Hpos.
  rewrite (cons_ch lp Hcp), (cons_ch l Hc), Hi, Hp, size_app.
  destruct (Z.ltb_spec (position l) (size (input l)));
    destruct (Z.ltb_spec (size pre + position l) (size pre + size (input l)));
    try lia; [|reflexivity].
  apply char_at_shift. lia.
Qed.

Lemma shifted_readChar (pre : string) (l lp : Lexer) :
  shifted pre l lp -> position l < size (input l) ->
  shifted pre (readChar l) (readChar lp).
Proof.
  intros [Hi Hp Hin Hc Hcp] Hlt.
  pose proof (readChar_position l Hc Hin) as H1.
  assert (H2 : position (readChar lp) = position lp + 1).
  { apply readChar_position; [assumption|]. rewrite Hi, Hp, size_app. lia. }
  constructor.
  - exact Hi.
  - rewrite H2, H1, Hp. lia.
  - rewrite H1, readChar_input. lia.
  - now apply consistent_readChar.
  - now apply consistent_readChar.
Qed.

Lemma shifted_readWhile (p : ascii -> bool) (pre : string) (fuel : nat)
      (l lp l' : Lexer) :
  p NUL = false -> shifted pre l lp -> readWhile p fuel l = Ok l' ->
  exists lp', readWhile p fuel lp = Ok lp' /\ shifted pre l' lp'.
Proof.
  intros HN. revert l lp. induction fuel as [|f IH]; intros l lp Hs H;
    simpl in *; rewrite (shifted_ch pre l lp Hs);
    destruct (p (ch l)) eqn:E; try discriminate.
  - injection H as <-. now exists lp.
  - apply (IH (readChar l)); [|assumption].
    apply shifted_readChar; [assumption|].
    apply consistent_inside; [exact (sh_left _ _ _ Hs)|].
    intros E0. rewrite E0 in E. congruence.
  - injection H as <-. now exists lp.
Qed.

(** The text of a run does not depend on what precedes the run. *)
Lemma shifted_run (p : ascii -> bool) (pre : string) (fuel : nat)
      (l lp l' : Lexer) (s : string) :
  p NUL = false -> shifted pre l lp -> p (ch l) = true ->
  (l2 <- readWhile p fuel l ;;
   s <- substr (input l2) (position l) (wrap (position l2 - position l)) ;;
   Ok (s, l2)) = Ok (s, l') ->
  exists lp',
    (l2 <- readWhile p fuel lp ;;
     s <- substr (input l2) (position lp) (wrap (position l2 - position lp)) ;;
     Ok (s, l2)) = Ok (s, lp') /\
    shifted pre l' lp'.
Proof.
  intros HN Hs Hp H.
  pose proof (sh_left _ _ _ Hs) as Hc.
  destruct (run_text p fuel l l' s HN Hc Hp H) as (Hc' & Hi' & Hpos & Htxt & _).
  destruct (readWhile p fuel l) as [l2| |] eqn:Er; try discriminate.
  cbn [bind] in H.
  destruct (substr (input l2) (position l) (wrap (position l2 - position l)))
    as [s2| |]; try discriminate.
  cbn [bind] in H. injection H as -> ->.
  destruct (shifted_readWhile p pre fuel l lp l' HN Hs Er) as (lp' & Hr & Hs').
  exists lp'. rewrite Hr. cbn [bind]. split; [|assumption].
  pose proof (cons_position l Hc). pose proof (cons_position lp' (sh_right _ _ _ Hs')).
  rewrite (sh_input _ _ _ Hs'), (sh_position _ _ _ Hs), (sh_position _ _ _ Hs').
  rewrite Hi'. pose proof (size_nonneg pre) as Hpre.
  pose proof (sh_position _ _ _ Hs') as Hp'.
  rewrite (substr_slice (pre ++ input l) (size pre + position l)
             (size pre + position l')).
  - cbn [bind]. rewrite slice_shift by lia. now rewrite Htxt.
  - lia.
  - rewrite size_app. lia.
  - lia.
Qed.

Lemma shifted_nextToken (pre : string) (fuel : nat) (l lp : Lexer)
      (tok : Token) (l' : Lexer) :
  shifted pre l lp -> nextToken fuel l = Ok (tok, l') ->
  exists lp',
    nextToken fuel lp = Ok (tok, lp') /\
    (type tok <> END_OF_FILE -> shifted pre l' lp').
Proof.
  intros Hs H. unfold nextToken, skipWhitespace in *.
  destruct (readWhile is_space fuel l) as [l1| |] eqn:E1; try discriminate.
  destruct (shifted_readWhile is_space pre fuel l lp l1 is_space_NUL Hs E1)
    as (lp1 & Hr1 & Hs1).
  rewrite Hr1. cbn [bind] in *. rewrite (shifted_ch pre l1 lp1 Hs1).
  pose proof (sh_left _ _ _ Hs1) as Hc1.
  assert (Hstep : ch l1 <> NUL -> shifted pre (readChar l1) (readChar lp1)).
  { intros Hn. apply shifted_readChar; [assumption|].
    now apply consistent_inside. }
  destruct (symbol (ch l1)) as [sym|] eqn:Esym.
  { injection H as <- <-. exists (readChar lp1). split; [reflexivity|].
    intros _. apply Hstep. now destruct (class_symbol _ _ Esym). }
  destruct (Ascii.eqb_spec (ch l1) NUL) as [E0|Hn].
  { injection H as <- <-. exists (readChar lp1). split; [reflexivity|].
    intros Hty. now contradiction Hty. }
  destruct (isdigit (ch l1)) eqn:Ed.
  { unfold readNumber in *.
    destruct (l2 <- readWhile isdigit fuel l1;;
              s <- substr (input l2) (position l1) (wrap (position l2 - position l1));;
              Ok (s, l2)) as [[num l2]| |] eqn:Er; try discriminate.
    cbn [bind] in H. injection H as <- <-.
    destruct (shifted_run isdigit pre fuel l1 lp1 l2 num isdigit_NUL Hs1 Ed Er)
      as (lp2 & Hr2 & Hs2).
    rewrite Hr2. cbn [bind]. exists lp2. split; [reflexivity|]. now intros _. }
  destruct (is_ident_char (ch l1)) eqn:Ei.
  { unfold readIdentifier in *.
    destruct (l2 <- readWhile is_ident_char fuel l1;;
              s <- substr (input l2) (position l1) (wrap (position l2 - position l1));;
              Ok (s, l2)) as [[ident l2]| |] eqn:Er; try discriminate.
    cbn [bind] in H.
    destruct (shifted_run is_ident_char pre fuel l1 lp1 l2 ident is_ident_char_NUL Hs1 Ei Er)
      as (lp2 & Hr2 & Hs2).
    rewrite Hr2. cbn [bind]. exists lp2.
    destruct (ident =? "let")%string; injection H as <- <-;
      (split; [reflexivity|now intros _]). }
  injection H as <- <-. exists (readChar lp1). split; [reflexivity|].
  intros _. now apply Hstep.
Qed.

Lemma shifted_tokenize (pre : string) (fuel calls : nat) (l lp : Lexer)
      (toks : list Token) :
  shifted pre l lp -> tokenize fuel calls l = Ok toks ->
  tokenize fuel calls lp = Ok toks.
Proof.
  revert l lp toks. induction calls as [|n IH]; intros l lp toks Hs H;
    [discriminate|].
  rewrite tokenize_step in *.
  destruct (nextToken fuel l) as [[tok l1]| |] eqn:E; try discriminate.
  destruct (shifted_nextToken pre fuel l lp tok l1 Hs E) as (lp1 & Hn & Hs1).
  rewrite Hn. cbn [bind] in *.
  destruct (TokenType_eqb (type tok) END_OF_FILE) eqn:Ee; [assumption|].
  destruct (tokenize fuel n l1) as [ts| |] eqn:Et; try discriminate.
  rewrite (IH l1 lp1 ts); [assumption| |assumption].
  apply Hs1. intros Hty. apply TokenType_eqb_eq in Hty. congruence.
Qed.

Lemma valid_input_app_r (pre s : string) :
  valid_input (pre ++ s) -> valid_input s.
Proof.
  unfold valid_input. rewrite size_app. pose proof (size_nonneg pre). lia.
Qed.

Lemma shifted_newLexer (pre s : string) (lp : Lexer) :
  valid_input (pre ++ s) -> consistent lp ->
  input lp = (pre ++ s)%string -> position lp = size pre ->
  shifted pre (newLexer s) lp.
Proof.
  intros Hv Hc Hi Hp. constructor; simpl.
  - exact Hi.
  - lia.
  - apply size_nonneg.
  - apply newLexer_consistent. now apply (valid_input_app_r pre).
  - exact Hc.
Qed.

(** X9. The scan has no memory. When a lexer on the text [pre ++ s] has
    come to stand on the first character of [s], by whatever calls, its
    tokens from there up to END_OF_FILE are those of a fresh lexer on [s]. *)
Theorem X9_scan_has_no_memory (pre s : string) (lp : Lexer) (fuel calls : nat) :
  valid_input (pre ++ s) -> reachable (pre ++ s) lp -> position lp = size pre ->
  (String.length s <= fuel)%nat -> (String.length s < calls)%nat ->
  exists toks,
    tokenize fuel calls (newLexer s) = Ok toks /\
    tokenize fuel calls lp = Ok toks.
Proof.
  intros Hv Hr Hp Hf Hc.
  destruct (reachable_consistent _ lp Hv Hr) as [Hcl Hi].
  destruct (tokenize_spec fuel calls (newLexer s)) as (toks & Ht & _).
  - apply newLexer_consistent. now apply (valid_input_app_r pre).
  - simpl. apply size_nonneg.
  - unfold remaining. simpl. unfold size. lia.
  - unfold remaining. simpl. unfold size. lia.
  - exists (toks ++ [EOF_token])%list. split; [assumption|].
    apply (shifted_tokenize pre fuel calls (newLexer s) lp); [|assumption].
    now apply shifted_newLexer.
Qed.

Lemma X9_scan_has_no_memory_witness :
  exists toks,
    tokenize 3 4 (newLexer "b c") = Ok toks /\
    tokenize 3 4 (readChar (readChar (newLexer "a+b c"))) = Ok toks.
Proof.
  apply (X9_scan_has_no_memory "a+" "b c" (readChar (readChar (newLexer "a+b c"))) 3 4).
  - reflexivity.
  - apply (reach_next "a+b c" (readChar (newLexer "a+b c")) 0 (mkToken PLUS "+")).
    + apply (reach_next "a+b c" (newLexer "a+b c") 1 (mkToken IDENTIFIER "a"));
        [apply reach_new | reflexivity].
    + reflexivity.
  - reflexivity.
  - simpl; lia.
  - simpl; lia.
Defined.

(** ** Whitespace before a token *)

(** A call from a cursor that only whitespace separates from a later
    cursor is the call from the later cursor. *)
Lemma nextToken_over_whitespace (fuel : nat) (l lw : Lexer) :
  consistent l -> consistent lw -> input lw = input l ->
  position l <= position lw <= size (input l) ->
  (forall i, position l <= i < position lw ->
             is_space (char_at (input l) i) = true) ->
  (remaining l <= fuel)%nat ->
  nextToken fuel l = nextToken fuel lw.
Proof.
  intros Hc Hcw Hi Hp Hws Hf.
  assert (Hfw : (remaining lw <= fuel)%nat).
  { pose proof (remaining_le l lw Hi ltac:(lia)). lia. }
  destruct (readWhile_spec is_space fuel l is_space_NUL Hc Hf)
    as (l1 & H1 & Hc1 & Hi1 & Hs1 & Hle1 & Hin1 & _).
  destruct (readWhile_spec is_space fuel lw is_space_NUL Hcw Hfw)
    as (l2 & H2 & Hc2 & Hi2 & Hs2 & Hle2 & Hin2 & _).
  pose proof (readWhile_chars is_space fuel l l1 is_space_NUL Hc H1) as Hch1.
  pose proof (readWhile_chars is_space fuel lw l2 is_space_NUL Hcw H2) as Hch2.
  rewrite Hi in *. specialize (Hin1 ltac:(lia)). specialize (Hin2 ltac:(lia)).
  assert (Hat : forall m, consistent m -> input m = input l ->
            is_space (ch m) = false -> position m < size (input l) ->
            is_space (char_at (input l) (position m)) = false).
  { intros m Hm Him Hsm Hlt. rewrite <- Him in *.
    now rewrite <- (consistent_ch_inside m Hm Hlt). }
  assert (Heq : position l1 = position l2).
  { destruct (Z.lt_trichotomy (position l1) (position l2)) as [Hlt|[E|Hgt]];
      [exfalso | assumption | exfalso].
    - pose proof (Hat l1 Hc1 Hi1 Hs1 ltac:(lia)) as Hn.
      destruct (Z.lt_ge_cases (position l1) (position lw)).
      + rewrite Hws in Hn by lia. discriminate.
      + rewrite Hch2 in Hn by lia. discriminate.
    - pose proof (Hat l2 Hc2 Hi2 Hs2 ltac:(lia)) as Hn.
      rewrite Hch1 in Hn by lia. discriminate. }
  assert (El : l1 = l2).
  { rewrite (consistent_lexer_at l1 Hc1), (consistent_lexer_at l2 Hc2).
    congruence. }
  unfold nextToken, skipWhitespace. rewrite H1, H2, El. reflexivity.
Qed.

Lemma leading_whitespace (ws s : string) (fuel calls : nat) :
  valid_input (ws ++ s) -> all_chars is_space ws = true ->
  (String.length (ws ++ s) <= fuel)%nat -> (String.length s < calls)%nat ->
  exists toks,
    tokenize fuel calls (newLexer s) = Ok toks /\
    tokenize fuel calls (newLexer (ws ++ s)) = Ok toks.
Proof.
  intros Hv Hws Hf Hc.
  pose proof (size_nonneg ws) as Hw0. pose proof (size_nonneg s) as Hs0.
  pose proof (size_app ws s) as Hsz.
  assert (Hlen : (String.length s <= String.length (ws ++ s))%nat).
  { unfold size in Hsz. lia. }
  assert (Hcw : consistent (lexer_at (ws ++ s) (size ws))).
  { apply lexer_at_consistent; [assumption|]. unfold valid_input in Hv. lia. }
  destruct (tokenize_spec fuel calls (newLexer s)) as (toks & Ht & _).
  - apply newLexer_consistent. now apply (valid_input_app_r ws).
  - simpl. apply size_nonneg.
  - unfold remaining. simpl. unfold size. lia.
  - unfold remaining. simpl. unfold size. lia.
  - exists (toks ++ [EOF_token])%list. split; [assumption|].
    assert (Hw : tokenize fuel calls (lexer_at (ws ++ s) (size ws))
                 = Ok (toks ++ [EOF_token])%list).
    { apply (shifted_tokenize ws fuel calls (newLexer s)); [|assumption].
      apply shifted_newLexer; [assumption..|reflexivity|reflexivity]. }
    destruct calls as [|n]; [discriminate|].
    rewrite tokenize_step in *.
    rewrite (nextToken_over_whitespace fuel (newLexer (ws ++ s))
               (lexer_at (ws ++ s) (size ws))); [exact Hw| | | | | |].
    + now apply newLexer_consistent.
    + assumption.
    + reflexivity.
    + simpl. lia.
    + simpl. intros i Hi. rewrite char_at_left by lia.
      apply all_chars_char_at; [assumption|lia].
    + unfold remaining. simpl. unfold size in *. lia.
Qed.

(** X10. Whitespace in front of a text does not change its tokens: the
    scan of [ws ++ s], where [ws] holds only spaces, tabs, newlines and
    carriage returns, returns the token list of the scan of [s]. *)
Theorem X10_leading_whitespace_ignored (ws s : string) (fuel calls : nat) :
  valid_input (ws ++ s) -> all_chars is_space ws = true ->
  (String.length (ws ++ s) <= fuel)%nat -> (String.length s < calls)%nat ->
  exists toks,
    tokenize fuel calls (newLexer s) = Ok toks /\
    tokenize fuel calls (newLexer (ws ++ s)) = Ok toks.
Proof. exact (leading_whitespace ws s fuel calls). Qed.

Lemma X10_leading_whitespace_ignored_witness :
  exists toks,
    tokenize 5 4 (newLexer "x=1") = Ok toks /\
    tokenize 5 4 (newLexer ("  " ++ "x=1")) = Ok toks.
Proof.
  apply (X10_leading_whitespace_ignored "  " "x=1" 5 4);
    [reflexivity | reflexivity | simpl; lia | simpl; lia].
Defined.

(** X11. An input of whitespace only, the empty input included, yields
    END_OF_FILE with the empty text at the first call. *)
Theorem X11_blank_input (ws : string) (fuel calls : nat) :
  valid_input ws -> all_chars is_space ws = true ->
  (String.length ws <= fuel)%nat -> (1 <= calls)%nat ->
  tokenize fuel calls (newLexer ws) = Ok [EOF_token] /\
  exists l', nextToken fuel (newLexer ws) = Ok (EOF_token, l').
Proof.
  intros Hv Hws Hf Hc.
  assert (Ht : tokenize fuel calls (newLexer ws) = Ok [EOF_token]).
  { destruct (leading_whitespace ws "" fuel calls) as (toks & H0 & H1).
    - now rewrite append_empty_r.
    - assumption.
    - now rewrite append_empty_r.
    - simpl. lia.
    - rewrite append_empty_r in H1. rewrite H1, <- H0.
      destruct calls as [|n]; [lia|].
      rewrite tokenize_step, (nextToken_at_NUL fuel (newLexer "")) by reflexivity.
      reflexivity. }
  split; [assumption|].
  destruct calls as [|n]; [lia|]. rewrite tokenize_step in Ht.
  destruct (nextToken fuel (newLexer ws)) as [[tok l1]| |]; try discriminate.
  cbn [bind] in Ht. exists l1.
  destruct (TokenType_eqb (type tok) END_OF_FILE) eqn:Ee.
  - injection Ht as ->. reflexivity.
  - destruct (tokenize fuel n l1) as [ts| |]; try discriminate.
    cbn [bind] in Ht. injection Ht as -> _. discriminate Ee.
Qed.

Lemma X11_blank_input_witness :
  tokenize 3 1 (newLexer "   ") = Ok [EOF_token] /\
  exists l', nextToken 3 (newLexer "   ") = Ok (EOF_token, l').
Proof.
  apply (X11_blank_input "   " 3 1);
    [reflexivity | reflexivity | simpl; lia | lia].
Defined.

(** ** The scan of a text followed by whitespace and more text *)

Lemma class_space (c : ascii) :
  is_space c = true ->
  c <> NUL /\ isdigit c = false /\ is_ident_char c = false.
Proof. by_all_bytes c. Qed.

Lemma append_assoc (a b c : string) : ((a ++ b) ++ c = a ++ (b ++ c))%string.
Proof. induction a as [|x a IH]; simpl; [reflexivity | now rewrite IH]. Qed.

Lemma substring_app_left (s ext : string) (n m : nat) :
  (n + m <= String.length s)%nat ->
  String.substring n m (s ++ ext) = String.substring n m s.
Proof.
  revert n m. induction s as [|a s IH]; intros n m H; simpl in H.
  - assert (n = O) by lia. assert (m = O) by lia. subst. simpl.
    now destruct ext.
  - destruct n as [|n].
    + destruct m as [|m]; [reflexivity|]. simpl. f_equal. apply IH. simpl. lia.
    + simpl. apply IH. lia.
Qed.

Lemma slice_left (s ext : string) (a b : Z) :
  0 <= a <= b -> b <= size s -> slice (s ++ ext) a b = slice s a b.
Proof.
  intros Ha Hb. unfold slice, size in *. apply substring_app_left. lia.
Qed.

Lemma extended_ch (ext : string) (l le : Lexer) :
  extended ext l le -> position l < size (input l) -> ch le = ch l.
Proof.
  intros [Hi Hp Hin Hc Hce] Hlt. pose proof (cons_position l Hc) as Hpos.
  pose proof (size_nonneg ext).
  rewrite (consistent_ch_inside l Hc Hlt).
  rewrite (consistent_ch_inside le Hce) by (rewrite Hi, Hp, size_app; lia).
  rewrite Hi, Hp. apply char_at_left. lia.
Qed.

Lemma extended_ch_end (c0 : ascii) (rest : string) (l le : Lexer) :
  extended (String c0 rest) l le -> position l = size (input l) ->
  ch l = NUL /\ ch le = c0.
Proof.
  intros [Hi Hp Hin Hc Hce] He. split.
  - apply consistent_ch_outside; [assumption|lia].
  - pose proof (size_nonneg rest). pose proof (size_nonneg (input l)).
    assert (Hsz : size (String c0 rest) = 1 + size rest).
    { unfold size. cbn [String.length]. lia. }
    rewrite (consistent_ch_inside le Hce) by (rewrite Hi, Hp, size_app; lia).
    rewrite Hi, Hp, He.
    pose proof (char_at_shift (input l) (String c0 rest) 0 ltac:(lia)) as Hs.
    rewrite Z.add_0_r in Hs. rewrite Hs. reflexivity.
Qed.

Lemma extended_readChar (ext : string) (l le : Lexer) :
  extended ext l le -> position l < size (input l) ->
  extended ext (readChar l) (readChar le).
Proof.
  intros [Hi Hp Hin Hc Hce] Hlt. pose proof (size_nonneg ext).
  pose proof (readChar_position l Hc Hin) as H1.
  assert (H2 : position (readChar le) = position le + 1).
  { apply readChar_position; [assumption|]. rewrite Hi, Hp, size_app. lia. }
  constructor.
  - exact Hi.
  - rewrite H2, H1, Hp. reflexivity.
  - rewrite H1, readChar_input. lia.
  - now apply consistent_readChar.
  - now apply consistent_readChar.
Qed.

Lemma extended_readWhile (p : ascii -> bool) (c0 : ascii) (rest : string)
      (fuel : nat) (l le l' : Lexer) :
  p NUL = false -> extended (String c0 rest) l le ->
  readWhile p fuel l = Ok l' ->
  position l' < size (input l) \/ p c0 = false ->
  exists le', readWhile p fuel le = Ok le' /\ extended (String c0 rest) l' le'.
Proof.
  intros HN. revert l le. induction fuel as [|f IH]; intros l le He H Hor;
    simpl in H |- *;
    (destruct (Z.eq_dec (position l) (size (input l))) as [Eend|Nend];
     [ destruct (extended_ch_end c0 rest l le He Eend) as [E0 Ec];
       rewrite E0, HN in H; injection H as <-; rewrite Ec;
       destruct Hor as [Hlt|Hp0]; [lia|]; rewrite Hp0; now exists le
     | assert (Hlt : position l < size (input l))
         by (pose proof (ex_inside _ _ _ He); lia);
       rewrite (extended_ch _ l le He Hlt);
       destruct (p (ch l)) eqn:E; try discriminate ]).
  - injection H as <-. now exists le.
  - apply (IH (readChar l)); [|assumption|assumption].
    now apply extended_readChar.
  - injection H as <-. now exists le.
Qed.

Lemma extended_run (p : ascii -> bool) (c0 : ascii) (rest : string)
      (fuel : nat) (l le l' : Lexer) (s : string) :
  p NUL = false -> p c0 = false -> extended (String c0 rest) l le ->
  p (ch l) = true ->
  (l2 <- readWhile p fuel l ;;
   s <- substr (input l2) (position l) (wrap (position l2 - position l)) ;;
   Ok (s, l2)) = Ok (s, l') ->
  exists le',
    (l2 <- readWhile p fuel le ;;
     s <- substr (input l2) (position le) (wrap (position l2 - position le)) ;;
     Ok (s, l2)) = Ok (s, le') /\
    extended (String c0 rest) l' le'.
Proof.
  intros HN Hp0 He Hp H.
  pose proof (ex_left _ _ _ He) as Hc.
  destruct (run_text p fuel l l' s HN Hc Hp H) as (Hc' & Hi' & Hpos & Htxt & _).
  destruct (readWhile p fuel l) as [l2| |] eqn:Er; try discriminate.
  cbn [bind] in H.
  destruct (substr (input l2) (position l) (wrap (position l2 - position l)))
    as [s2| |]; try discriminate.
  cbn [bind] in H. injection H as -> ->.
  destruct (extended_readWhile p c0 rest fuel l le l' HN He Er (or_intror Hp0))
    as (le' & Hr & He').
  exists le'. rewrite Hr. cbn [bind]. split; [|assumption].
  pose proof (cons_position l Hc). pose proof (cons_position l' Hc').
  pose proof (size_nonneg (String c0 rest)).
  rewrite (ex_input _ _ _ He'), (ex_position _ _ _ He), (ex_position _ _ _ He'), Hi'.
  rewrite substr_slice; [| lia | rewrite size_app; lia | lia].
  cbn [bind]. rewrite slice_left by lia. now rewrite Htxt.
Qed.

Lemma extended_nextToken (c0 : ascii) (rest : string) (fuel : nat)
      (l le : Lexer) (tok : Token) (l' : Lexer) :
  is_space c0 = true -> extended (String c0 rest) l le ->
  nextToken fuel l = Ok (tok, l') -> type tok <> END_OF_FILE ->
  exists le',
    nextToken fuel le = Ok (tok, le') /\ extended (String c0 rest) l' le'.
Proof.
  intros Hsp He H Hty. destruct (class_space c0 Hsp) as (_ & Hd0 & Hi0).
  unfold nextToken, skipWhitespace in *.
  destruct (readWhile is_space fuel l) as [l1| |] eqn:E1; try discriminate.
  cbn [bind] in H.
  destruct (readWhile_inv is_space fuel l l1 is_space_NUL (ex_left _ _ _ He) E1)
    as (Hc1 & Hi1 & _).
  destruct (Ascii.eqb_spec (ch l1) NUL) as [E0|Hn].
  { exfalso. rewrite E0 in H. cbn in H. injection H as <- _. now apply Hty. }
  pose proof (consistent_inside l1 Hc1 Hn) as Hlt1.
  destruct (extended_readWhile is_space c0 rest fuel l le l1 is_space_NUL He E1)
    as (le1 & Hr1 & He1); [left; now rewrite <- Hi1|].
  rewrite Hr1. cbn [bind]. rewrite (extended_ch _ l1 le1 He1 Hlt1).
  pose proof (extended_readChar _ l1 le1 He1 Hlt1) as Hstep.
  destruct (symbol (ch l1)) as [sym|] eqn:Esym.
  { injection H as <- <-. now exists (readChar le1). }
  destruct (Ascii.eqb_spec (ch l1) NUL) as [E0|_]; [contradiction|].
  destruct (isdigit (ch l1)) eqn:Ed.
  { unfold readNumber in *.
    destruct (l2 <- readWhile isdigit fuel l1;;
              s <- substr (input l2) (position l1) (wrap (position l2 - position l1));;
              Ok (s, l2)) as [[num l2]| |] eqn:Er; try discriminate.
    cbn [bind] in H. injection H as <- <-.
    destruct (extended_run isdigit c0 rest fuel l1 le1 l2 num isdigit_NUL Hd0 He1 Ed Er)
      as (le2 & Hr2 & He2).
    rewrite Hr2. cbn [bind]. now exists le2. }
  destruct (is_ident_char (ch l1)) eqn:Ei.
  { unfold readIdentifier in *.
    destruct (l2 <- readWhile is_ident_char fuel l1;;
              s <- substr (input l2) (position l1) (wrap (position l2 - position l1));;
              Ok (s, l2)) as [[ident l2]| |] eqn:Er; try discriminate.
    cbn [bind] in H.
    destruct (extended_run is_ident_char c0 rest fuel l1 le1 l2 ident
                is_ident_char_NUL Hi0 He1 Ei Er) as (le2 & Hr2 & He2).
    rewrite Hr2. cbn [bind]. exists le2.
    destruct (ident =? "let")%string; injection H as <- <-; now split. }
  injection H as <- <-. now exists (readChar le1).
Qed.

Lemma concat_scan (c0 : ascii) (rest s2 : string) (fuel : nat) (toks2 : list Token) :
  is_space c0 = true -> all_chars is_space rest = true ->
  (forall calls, (String.length s2 < calls)%nat ->
     tokenize fuel calls (newLexer s2) = Ok toks2) ->
  forall (calls : nat) (l le : Lexer),
    extended (String c0 rest ++ s2) l le -> nul_free (input l) = true ->
    (remaining le <= fuel)%nat -> (remaining le < calls)%nat ->
    exists toks,
      tokenize fuel calls l = Ok (toks ++ [EOF_token])%list /\
      tokenize fuel calls le = Ok (toks ++ toks2)%list.
Proof.
  intros Hsp Hrest H2. induction calls as [|n IH]; intros l le He Hnf Hf Hn; [lia|].
  pose proof (ex_left _ _ _ He) as Hc. pose proof (ex_right _ _ _ He) as Hce.
  pose proof (ex_input _ _ _ He) as Hie. pose proof (ex_position _ _ _ He) as Hpe.
  pose proof (ex_inside _ _ _ He) as Hin.
  pose proof (cons_position l Hc) as Hpos.
  pose proof (size_nonneg rest) as Hr0. pose proof (size_nonneg s2) as Hs0.
  assert (Hext : size (String c0 rest ++ s2) = 1 + size rest + size s2).
  { rewrite size_app. unfold size. cbn [String.length]. lia. }
  assert (Hrem : remaining le
                 = (remaining l + S (String.length rest) + String.length s2)%nat).
  { unfold remaining. rewrite Hie, Hpe, size_app, Hext. unfold size in *. lia. }
  assert (Hfl : (remaining l <= fuel)%nat) by lia.
  destruct (nextToken_spec fuel l Hc Hfl)
    as (l1 & tok & l2 & Hskip & Hnext & Hc1 & Hc2 & Hi1 & Hi2 & _ & Hle & Hin1
        & Htok & Heof & Hadv).
  specialize (Hin1 Hin). rewrite !tokenize_step, Hnext. cbn [bind].
  destruct (Ascii.eqb_spec (ch l1) NUL) as [E0|Hne].
  - (* the first text is exhausted *)
    rewrite E0 in Htok. apply token_for_NUL in Htok. subst tok.
    exists []. cbn [TokenType_eqb EOF_token type app]. split; [reflexivity|].
    rewrite <- Hi1 in Hnf. pose proof (nul_free_at_NUL l1 Hc1 Hnf E0) as Hend.
    rewrite Hi1 in Hend.
    pose proof (cons_input le Hce) as Hv. rewrite Hie in Hv.
    assert (Hvz : size (input l) + (1 + size rest + size s2) + 1 < SIZE_MOD).
    { unfold valid_input in Hv. rewrite size_app, Hext in Hv. exact Hv. }
    set (pre := (input l ++ String c0 rest)%string).
    assert (Hpre : size pre = size (input l) + 1 + size rest).
    { unfold pre. rewrite size_app. unfold size. cbn [String.length]. lia. }
    assert (Hsplit : (input l ++ String c0 rest ++ s2 = pre ++ s2)%string).
    { unfold pre. now rewrite append_assoc. }
    set (lw := lexer_at (input le) (size pre)).
    assert (Hcw : consistent lw).
    { apply lexer_at_consistent; [exact (cons_input le Hce)|lia]. }
    rewrite (nextToken_over_whitespace fuel le lw Hce Hcw).
    + rewrite <- tokenize_step.
      apply (shifted_tokenize pre fuel (S n) (newLexer s2) lw).
      * apply shifted_newLexer.
        -- rewrite <- Hsplit. exact Hv.
        -- exact Hcw.
        -- unfold lw. cbn [lexer_at input]. now rewrite Hie.
        -- reflexivity.
      * apply H2. lia.
    + reflexivity.
    + unfold lw. cbn [lexer_at position]. rewrite Hie, size_app, Hext, Hpe. lia.
    + unfold lw. cbn [lexer_at position]. intros i Hi. rewrite Hie.
      destruct (Z.lt_ge_cases i (size (input l))) as [Hlt|Hge].
      * rewrite char_at_left by lia.
        apply (readWhile_chars is_space fuel l l1 is_space_NUL Hc Hskip). lia.
      * replace i with (size (input l) + (i - size (input l))) by lia.
        rewrite char_at_shift by lia.
        assert (Hws : all_chars is_space (String c0 rest) = true)
          by (cbn [all_chars]; now rewrite Hsp).
        rewrite char_at_left by (unfold size in *; cbn [String.length]; lia).
        apply all_chars_char_at; [assumption|].
        unfold size in *. cbn [String.length]. lia.
    + assumption.
  - (* one more token of the first text *)
    destruct (Hadv Hne) as [Hp2 _].
    pose proof (token_for_not_eof _ _ Htok Hne) as Hty.
    destruct (extended_nextToken c0 (rest ++ s2) fuel l le tok l2 Hsp He Hnext Hty)
      as (le2 & Hn2 & He2).
    rewrite Hn2. cbn [bind].
    destruct (TokenType_eqb (type tok) END_OF_FILE) eqn:Eeq;
      [apply TokenType_eqb_eq in Eeq; contradiction|].
    assert (Hrem2 : (remaining le2 < remaining le)%nat).
    { unfold remaining. rewrite (ex_input _ _ _ He2), (ex_position _ _ _ He2).
      change (String c0 (rest ++ s2)) with (String c0 rest ++ s2)%string.
      rewrite Hie, Hpe, Hi2, !size_app.
      pose proof (size_nonneg (String c0 rest)). lia. }
    destruct (IH l2 le2 He2) as (toks & Ht1 & Ht2);
      [now rewrite Hi2 | lia | lia |].
    exists (tok :: toks). rewrite Ht1, Ht2. cbn [bind app]. now split.
Qed.

(** X13. Whitespace joins scans. For a text [s1] without null byte, a
    non-empty stretch [ws] of whitespace and any text [s2], the scan of
    [s1 ++ ws ++ s2] returns the tokens of [s1] that precede its
    END_OF_FILE, followed by the tokens of [s2]. *)
Theorem X13_whitespace_joins_scans (s1 ws s2 : string) (fuel calls : nat) :
  valid_input (s1 ++ ws ++ s2) -> nul_free s1 = true ->
  all_chars is_space ws = true -> ws <> EmptyString ->
  (String.length (s1 ++ ws ++ s2) <= fuel)%nat ->
  (String.length (s1 ++ ws ++ s2) < calls)%nat ->
  exists toks1 toks2,
    tokenize fuel calls (newLexer s1) = Ok (toks1 ++ [EOF_token])%list /\
    tokenize fuel calls (newLexer s2) = Ok toks2 /\
    tokenize fuel calls (newLexer (s1 ++ ws ++ s2)) = Ok (toks1 ++ toks2)%list.
Proof.
  intros Hv Hnf Hws Hne Hf Hc.
  destruct ws as [|c0 rest]; [contradiction|].
  cbn [all_chars] in Hws. apply andb_true_iff in Hws as [Hsp Hrest].
  pose proof (size_app s1 (String c0 rest ++ s2)) as Hsz.
  pose proof (size_app (String c0 rest) s2) as Hsz2.
  pose proof (size_nonneg s1). pose proof (size_nonneg s2).
  pose proof (size_nonneg (String c0 rest)).
  assert (Hv2 : valid_input s2).
  { apply (valid_input_app_r (String c0 rest)). now apply (valid_input_app_r s1). }
  assert (Hl2 : (String.length s2 <= fuel)%nat) by (unfold size in *; lia).
  destruct (tokenize_spec fuel (S (String.length s2)) (newLexer s2))
    as (t2 & Ht2 & _);
    [ now apply newLexer_consistent | simpl; lia
    | unfold remaining; simpl; unfold size; lia
    | unfold remaining; simpl; unfold size; lia | ].
  assert (H2 : forall c, (String.length s2 < c)%nat ->
                 tokenize fuel c (newLexer s2) = Ok (t2 ++ [EOF_token])%list).
  { intros c Hc2. apply (tokenize_more_fuel fuel fuel (S (String.length s2)) c);
      [assumption | lia | lia]. }
  assert (He : extended (String c0 rest ++ s2) (newLexer s1)
                 (newLexer (s1 ++ String c0 rest ++ s2))).
  { constructor; simpl; try reflexivity; try lia.
    - apply newLexer_consistent. unfold valid_input in *. lia.
    - now apply newLexer_consistent. }
  destruct (concat_scan c0 rest s2 fuel _ Hsp Hrest H2 calls _ _ He) as (t1 & Ha & Hb).
  - exact Hnf.
  - unfold remaining, newLexer. cbn [readChar input position readPosition].
    unfold size in *. lia.
  - unfold remaining, newLexer. cbn [readChar input position readPosition].
    unfold size in *. lia.
  - exists t1, (t2 ++ [EOF_token])%list. split; [assumption|].
    split; [|assumption]. apply H2. unfold size in *. lia.
Qed.

Lemma X13_whitespace_joins_scans_witness :
  exists toks1 toks2,
    tokenize 8 9 (newLexer "let x") = Ok (toks1 ++ [EOF_token])%list /\
    tokenize 8 9 (newLexer "=1") = Ok toks2 /\
    tokenize 8 9 (newLexer ("let x" ++ " " ++ "=1")) = Ok (toks1 ++ toks2)%list.
Proof.
  apply (X13_whitespace_joins_scans "let x" " " "=1" 8 9);
    [reflexivity | reflexivity | reflexivity | discriminate
    | simpl; lia | simpl; lia].
Defined.

Lemma trailing_scan (c0 : ascii) (rest : string) (fuel : nat) :
  is_space c0 = true -> all_chars is_space rest = true ->
  forall (calls : nat) (l le : Lexer),
    extended (String c0 rest) l le ->
    (remaining le <= fuel)%nat -> (remaining le < calls)%nat ->
    exists toks,
      tokenize fuel calls l = Ok toks /\ tokenize fuel calls le = Ok toks.
Proof.
  intros Hsp Hrest. induction calls as [|n IH]; intros l le He Hf Hn; [lia|].
  pose proof (ex_left _ _ _ He) as Hc. pose proof (ex_right _ _ _ He) as Hce.
  pose proof (ex_input _ _ _ He) as Hie. pose proof (ex_position _ _ _ He) as Hpe.
  pose proof (ex_inside _ _ _ He) as Hin.
  pose proof (cons_position l Hc) as Hpos.
  pose proof (size_nonneg rest) as Hr0.
  assert (Hext : size (String c0 rest) = 1 + size rest).
  { unfold size. cbn [String.length]. lia. }
  assert (Hrem : remaining le = (remaining l + S (String.length rest))%nat).
  { unfold remaining. rewrite Hie, Hpe, size_app, Hext. unfold size in *. lia. }
  assert (Hfl : (remaining l <= fuel)%nat) by lia.
  destruct (nextToken_spec fuel l Hc Hfl)
    as (l1 & tok & l2 & Hskip & Hnext & Hc1 & Hc2 & Hi1 & Hi2 & _ & Hle & Hin1
        & Htok & Heof & Hadv).
  specialize (Hin1 Hin). rewrite !tokenize_step, Hnext. cbn [bind].
  destruct (Ascii.eqb_spec (ch l1) NUL) as [E0|Hne].
  - (* END_OF_FILE on the shorter text *)
    rewrite E0 in Htok. apply token_for_NUL in Htok. subst tok.
    exists [EOF_token]. cbn [TokenType_eqb EOF_token type]. split; [reflexivity|].
    assert (Hle_eof : exists le', nextToken fuel le = Ok (EOF_token, le')).
    { destruct (Z.eq_dec (position l1) (size (input l))) as [Eend|Nend].
      - (* at the end of the shorter text: only whitespace is left *)
        pose proof (cons_input le Hce) as Hv.
        assert (Hvz : size (input le) + 1 < SIZE_MOD) by exact Hv.
        assert (Hsle : size (input le) = size (input l) + 1 + size rest).
        { rewrite Hie, size_app, Hext. lia. }
        set (lw := lexer_at (input le) (size (input le))).
        assert (Hcw : consistent lw).
        { apply lexer_at_consistent; [assumption|].
          pose proof (size_nonneg (input le)). lia. }
        exists (readChar lw).
        rewrite (nextToken_over_whitespace fuel le lw Hce Hcw).
        + apply nextToken_past_end; [assumption|]. unfold lw. simpl. lia.
        + reflexivity.
        + unfold lw. cbn [lexer_at position]. lia.
        + unfold lw. cbn [lexer_at position]. intros i Hi. rewrite Hie.
          destruct (Z.lt_ge_cases i (size (input l))) as [Hlt|Hge].
          * rewrite char_at_left by lia.
            apply (readWhile_chars is_space fuel l l1 is_space_NUL Hc Hskip). lia.
          * replace i with (size (input l) + (i - size (input l))) by lia.
            rewrite char_at_shift by lia.
            apply all_chars_char_at; [cbn [all_chars]; now rewrite Hsp|lia].
        + assumption.
      - (* on a null byte of the text *)
        assert (Hlt : position l1 < size (input l1)) by (rewrite Hi1; lia).
        destruct (extended_readWhile is_space c0 rest fuel l le l1 is_space_NUL He Hskip)
          as (le1 & Hr1 & He1); [left; lia|].
        exists (readChar le1). unfold nextToken, skipWhitespace. rewrite Hr1.
        cbn [bind]. rewrite (extended_ch _ l1 le1 He1 Hlt), E0. reflexivity. }
    destruct Hle_eof as (le' & ->). reflexivity.
  - (* a token *)
    destruct (Hadv Hne) as [Hp2 _].
    pose proof (token_for_not_eof _ _ Htok Hne) as Hty.
    destruct (extended_nextToken c0 rest fuel l le tok l2 Hsp He Hnext Hty)
      as (le2 & Hn2 & He2).
    rewrite Hn2. cbn [bind].
    destruct (TokenType_eqb (type tok) END_OF_FILE) eqn:Eeq;
      [apply TokenType_eqb_eq in Eeq; contradiction|].
    assert (Hrem2 : (remaining le2 < remaining le)%nat).
    { unfold remaining. rewrite (ex_input _ _ _ He2), (ex_position _ _ _ He2).
      rewrite Hie, Hpe, Hi2, !size_app. lia. }
    destruct (IH l2 le2 He2) as (toks & Ht1 & Ht2); [lia | lia |].
    exists (tok :: toks). rewrite Ht1, Ht2. now split.
Qed.

(** X14. Whitespace behind a text does not change its tokens: the scan
    of [s ++ ws], where [ws] holds only whitespace, returns the token list
    of the scan of [s]. *)
Theorem X14_trailing_whitespace_ignored (s ws : string) (fuel calls : nat) :
  valid_input (s ++ ws) -> all_chars is_space ws = true ->
  (String.length (s ++ ws) <= fuel)%nat -> (String.length (s ++ ws) < calls)%nat ->
  exists toks,
    tokenize fuel calls (newLexer s) = Ok toks /\
    tokenize fuel calls (newLexer (s ++ ws)) = Ok toks.
Proof.
  intros Hv Hws Hf Hc.
  pose proof (size_app s ws) as Hsz. pose proof (size_nonneg s).
  pose proof (size_nonneg ws).
  destruct ws as [|c0 rest].
  - rewrite append_empty_r in *.
    destruct (tokenize_spec fuel calls (newLexer s)) as (toks & Ht & _);
      [ now apply newLexer_consistent | simpl; lia
      | unfold remaining, newLexer; cbn [readChar input position readPosition];
        unfold size; lia
      | unfold remaining, newLexer; cbn [readChar input position readPosition];
        unfold size; lia | ].
    now exists (toks ++ [EOF_token])%list.
  - cbn [all_chars] in Hws. apply andb_true_iff in Hws as [Hsp Hrest].
    assert (He : extended (String c0 rest) (newLexer s)
                   (newLexer (s ++ String c0 rest))).
    { constructor; simpl; try reflexivity; try lia.
      - apply newLexer_consistent. unfold valid_input in *. lia.
      - now apply newLexer_consistent. }
    apply (trailing_scan c0 rest fuel Hsp Hrest calls _ _ He).
    + unfold remaining, newLexer. cbn [readChar input position readPosition].
      unfold size in *. lia.
    + unfold remaining, newLexer. cbn [readChar input position readPosition].
      unfold size in *. lia.
Qed.

Lemma X14_trailing_whitespace_ignored_witness :
  exists toks,
    tokenize 5 6 (newLexer "x=1") = Ok toks /\
    tokenize 5 6 (newLexer ("x=1" ++ "  ")) = Ok toks.
Proof.
  apply (X14_trailing_whitespace_ignored "x=1" "  " 5 6);
    [reflexivity | reflexivity | simpl; lia | simpl; lia].
Defined.
